(** * Companydle: the daily puzzle engine of app.js, embedded in Rocq

    The development follows the source file section by section:
    numbers and bucket tables, the seeded schedule, the persisted game
    state, the rendering of a guess row, the share text and the guess
    submission.  JavaScript values are modelled by the cases the code
    distinguishes: [null], [undefined] and numbers, where a number is
    NaN, an infinity or a finite value.  Every finite double is a
    rational, and [<] and [===] on doubles agree with the order and the
    equality of the rationals they denote (the two zeros denote the same
    rational and are [===]), so finite numbers are rationals here. *)

From Stdlib Require Import ZArith QArith Lia Ascii String.
From stdpp Require Import base list strings gmap pretty.

Local Open Scope Z_scope.

(** ** JavaScript numbers and values *)

Inductive num : Type :=
  | NaN
  | NegInf
  | Fin (q : Q)
  | PosInf.

Inductive value : Type :=
  | Null
  | Undefined
  | Num (x : num).

Definition Qltb (a b : Q) : bool := negb (Qle_bool b a).

(** [a < b] on numbers: false as soon as one side is NaN. *)
Definition num_lt (a b : num) : bool :=
  match a, b with
  | NaN, _ | _, NaN => false
  | NegInf, NegInf => false
  | NegInf, _ => true
  | Fin _, NegInf => false
  | Fin x, Fin y => Qltb x y
  | Fin _, PosInf => true
  | PosInf, _ => false
  end.

(** [a === b] on numbers: NaN is not equal to itself. *)
Definition num_eq (a b : num) : bool :=
  match a, b with
  | NegInf, NegInf => true
  | PosInf, PosInf => true
  | Fin x, Fin y => Qeq_bool x y
  | _, _ => false
  end.

(** ** Exceptions

    [bucketUpper] dereferences the last bucket of its table and
    [loadState] parses the stored text inside a try block, so the
    embedding carries a small error monad. *)

Inductive exn : Type :=
  | TypeError
  | SyntaxError.

Inductive result (A : Type) : Type :=
  | Ok (a : A)
  | Throw (e : exn).
Arguments Ok {A} a.
Arguments Throw {A} e.

#[global] Instance result_ret : MRet result := fun _ a => Ok a.
#[global] Instance result_bind : MBind result := fun _ _ f m =>
  match m with
  | Ok a => f a
  | Throw e => Throw e
  end.
#[global] Instance result_fmap : FMap result := fun _ _ f m =>
  match m with
  | Ok a => Ok (f a)
  | Throw e => Throw e
  end.

(** ** Constants *)

Definition MAX_GUESSES : nat := 8.

(** ** Buckets *)

Record Bucket : Type := mkBucket { label : string; upper : num }.

Record BucketResult : Type := mkBucketResult { blabel : string; index : Z }.

Module BUCKETS.
Definition founded : list Bucket :=
  [ mkBucket "<1900" (Fin 1900);
    mkBucket "1900–1949" (Fin 1950);
    mkBucket "1950–1969" (Fin 1970);
    mkBucket "1970–1989" (Fin 1990);
    mkBucket "1990–2009" (Fin 2010);
    mkBucket "2010+" PosInf ].
Definition price : list Bucket :=
  [ mkBucket "<$25" (Fin 25);
    mkBucket "$25–$50" (Fin 50);
    mkBucket "$50–$100" (Fin 100);
    mkBucket "$100–$200" (Fin 200);
    mkBucket "$200–$500" (Fin 500);
    mkBucket "$500+" PosInf ].
Definition marketCap : list Bucket :=
  [ mkBucket "<$10B" (Fin 10000000000);
    mkBucket "$10B–$50B" (Fin 50000000000);
    mkBucket "$50B–$200B" (Fin 200000000000);
    mkBucket "$200B–$500B" (Fin 500000000000);
    mkBucket "$500B–$1T" (Fin 1000000000000);
    mkBucket "$1T+" PosInf ].
Definition employees : list Bucket :=
  [ mkBucket "<10K" (Fin 10000);
    mkBucket "10K–50K" (Fin 50000);
    mkBucket "50K–100K" (Fin 100000);
    mkBucket "100K–200K" (Fin 200000);
    mkBucket "200K–500K" (Fin 500000);
    mkBucket "500K+" PosInf ].
Definition pe : list Bucket :=
  [ mkBucket "<10" (Fin 10);
    mkBucket "10–20" (Fin 20);
    mkBucket "20–30" (Fin 30);
    mkBucket "30–50" (Fin 50);
    mkBucket "50–100" (Fin 100);
    mkBucket "100+" PosInf ].
End BUCKETS.

(** The [for] loop of [bucketUpper], started at index [i] on the buckets
    that remain: the first bucket whose bound is above the value. *)
Fixpoint bucketScan (x : num) (i : nat) (defs : list Bucket) : option BucketResult :=
  match defs with
  | [] => None
  | b :: rest =>
      if num_lt x (upper b) then Some (mkBucketResult (label b) (Z.of_nat i))
      else bucketScan x (S i) rest
  end.

(** The value tests of the first line: [null], [undefined] and NaN. *)
Definition isUnknown (v : value) : bool :=
  match v with
  | Null | Undefined | Num NaN => true
  | Num _ => false
  end.

Definition bucketUpper (v : value) (bucketDefs : list Bucket) : result BucketResult :=
  match v with
  | Null | Undefined | Num NaN => Ok (mkBucketResult "N/A" (-1))
  | Num x =>
      match bucketScan x 0 bucketDefs with
      | Some r => Ok r
      | None =>
          (* bucketDefs[bucketDefs.length - 1].label: a TypeError on an
             empty table *)
          match last bucketDefs with
          | Some b => Ok (mkBucketResult (label b) (Z.of_nat (length bucketDefs) - 1))
          | None => Throw TypeError
          end
      end
  end.

(** ** Arrows *)

Inductive Arrow : Type :=
  | NoArrow
  | Up
  | Down.

Definition arrowText (a : Arrow) : string :=
  match a with
  | NoArrow => ""
  | Up => "▲"
  | Down => "▼"
  end.

Definition arrowFor (guessVal answerVal : value) : Arrow :=
  match guessVal, answerVal with
  | Num g, Num a =>
      if num_eq g a then NoArrow
      else if num_lt g a then Up else Down
  | _, _ => NoArrow
  end.

(** ** 32-bit integer arithmetic

    [Math.imul], [^], [|] and [>>>] work on the 32-bit image of their
    operands.  A 32-bit integer is kept as its unsigned representative
    in [0, 2^32); the signed reading JavaScript gives to the result of
    [^] and [Math.imul] is the same residue modulo 2^32, and every
    operator below reduces its operands first. *)

Definition u32 (z : Z) : Z := z mod 2 ^ 32.
Definition imul (a b : Z) : Z := u32 (u32 a * u32 b).
Definition xor32 (a b : Z) : Z := Z.lxor (u32 a) (u32 b).
Definition or32 (a b : Z) : Z := Z.lor (u32 a) (u32 b).
Definition shru (a k : Z) : Z := Z.shiftr (u32 a) k.

(** [str.charCodeAt(i)] for the strings of this program, which are
    ASCII: one code unit per character. *)
Definition charCodes (s : string) : list Z :=
  (fun c => Z.of_nat (Ascii.nat_of_ascii c)) <$> String.list_ascii_of_string s.

(** ** Deterministic hash *)

Fixpoint cyrb53_loop (cs : list Z) (h1 h2 : Z) : Z * Z :=
  match cs with
  | [] => (h1, h2)
  | ch :: rest =>
      cyrb53_loop rest (imul (xor32 h1 ch) 2654435761) (imul (xor32 h2 ch) 1597334677)
  end.

Definition cyrb53 (str : string) (seed : Z) : Z :=
  let '(h1, h2) :=
    cyrb53_loop (charCodes str) (xor32 0xdeadbeef seed) (xor32 0x41c6ce57 seed) in
  let h1' := xor32 (imul (xor32 h1 (shru h1 16)) 2246822507)
                   (imul (xor32 h2 (shru h2 13)) 3266489909) in
  let h2' := xor32 (imul (xor32 h2 (shru h2 16)) 2246822507)
                   (imul (xor32 h1' (shru h1' 13)) 3266489909) in
  4294967296 * Z.land 2097151 h2' + u32 h1'.

(** ** Seeded generator

    The closure returned by [mulberry32] owns the counter [t]; one call
    is a step from the counter to the drawn number and the new counter.
    The drawn number is [u / 4294967296] with [u] a 32-bit integer, and
    the step returns the numerator [u]. *)

Definition mulberry32 (seed : Z) : Z := u32 seed.

Definition mulberry32_next (t : Z) : Z * Z :=
  let t := t + 0x6D2B79F5 in
  let x := t in
  let x := imul (xor32 x (shru x 15)) (or32 x 1) in
  let x := xor32 x (x + imul (xor32 x (shru x 7)) (or32 x 61)) in
  (xor32 x (shru x 14), t).

(** ** Shuffle *)

Section Shuffle.
Context {A : Type}.

(** [[a[i], a[j]] = [a[j], a[i]]]: both reads, then the write to [i],
    then the write to [j].  The loop only calls it with both indices
    inside the array (see [shuffle_index_bound]). *)
Definition swap (i j : nat) (a : list A) : list A :=
  match a !! i, a !! j with
  | Some x, Some y => <[j:=x]> (<[i:=y]> a)
  | _, _ => a
  end.

(** [Math.floor(rand() * (i + 1))] for the numerator [u] of the drawn
    number.  The product [u * (i + 1)] is exact in a double while
    [i + 1 < 2^21]. *)
Definition randomIndex (u : Z) (i : nat) : nat :=
  Z.to_nat (u * (Z.of_nat i + 1) / 2 ^ 32).

(** The loop [for (i = a.length - 1; i > 0; i--)], entered at [i]. *)
Fixpoint shuffleLoop (i : nat) (t : Z) (a : list A) : list A :=
  match i with
  | O => a
  | S i' =>
      let '(u, t') := mulberry32_next t in
      let j := randomIndex u (S i') in
      shuffleLoop i' t' (swap (S i') j a)
  end.

Definition seededShuffle (arr : list A) (seedStr : string) : list A :=
  let seed := u32 (cyrb53 seedStr 0) in
  shuffleLoop (length arr - 1) (mulberry32 seed) arr.
End Shuffle.

(** ** Companies *)

Record Company : Type := mkCompany {
  name : string;
  ticker : string;
  sector : option string;
  hq : option string;
  founded : value;
  price : value;
  marketCap : value;
  employees : value;
  pe : value
}.

#[global] Instance Q_eq_dec : EqDecision Q.
Proof. solve_decision. Defined.
#[global] Instance num_eq_dec : EqDecision num.
Proof. solve_decision. Defined.
#[global] Instance value_eq_dec : EqDecision value.
Proof. solve_decision. Defined.
#[global] Instance Company_eq_dec : EqDecision Company.
Proof. solve_decision. Defined.

Definition ANSWER_SALT : string := "companydle-v1".

(** ** Day numbers

    [getUTCDayNumber] splits the date text at the dashes, converts the
    parts with [Number] and divides [Date.UTC] by the length of a day.
    A number that may be NaN is an [option Z].  [Number] is modelled on
    the texts [getTodayNY] produces, runs of decimal digits (and the
    empty text, which converts to 0); any other text is read as NaN. *)

Fixpoint split_on (sep : ascii) (s : string) : list string :=
  match s with
  | EmptyString => [EmptyString]
  | String c rest =>
      if Ascii.eqb c sep then EmptyString :: split_on sep rest
      else match split_on sep rest with
           | [] => [String c EmptyString]
           | h :: t => String c h :: t
           end
  end.

Definition digitValue (c : ascii) : option Z :=
  let n := Z.of_nat (Ascii.nat_of_ascii c) in
  if (48 <=? n) && (n <=? 57) then Some (n - 48) else None.

Fixpoint digitsValue (s : string) (acc : Z) : option Z :=
  match s with
  | EmptyString => Some acc
  | String c rest =>
      match digitValue c with
      | Some d => digitsValue rest (10 * acc + d)
      | None => None
      end
  end.

Definition Number_ (s : string) : option Z := digitsValue s 0.

(** [Date.UTC(year, month, date)] on integers, after ECMAScript's
    MakeDay, MakeDate and TimeClip. *)
Definition DayFromYear (y : Z) : Z :=
  365 * (y - 1970) + (y - 1969) / 4 - (y - 1901) / 100 + (y - 1601) / 400.

Definition InLeapYear (y : Z) : bool :=
  (y mod 4 =? 0) && (negb (y mod 100 =? 0) || (y mod 400 =? 0)).

Definition monthStart (mn : Z) (leap : bool) : Z :=
  nth (Z.to_nat mn) [0; 31; 59; 90; 120; 151; 181; 212; 243; 273; 304; 334] 0
  + (if leap && (2 <=? mn) then 1 else 0).

Definition MakeDay (year month date : Z) : Z :=
  let ym := year + month / 12 in
  let mn := month mod 12 in
  DayFromYear ym + monthStart mn (InLeapYear ym) + date - 1.

Definition msPerDay : Z := 86400000.

Definition Date_UTC (y m d : Z) : option Z :=
  let yr := if (0 <=? y) && (y <=? 99) then 1900 + y else y in
  let tv := MakeDay yr m d * msPerDay in
  if Z.abs tv >? 8640000000000000 then None else Some tv.

Definition getUTCDayNumber (dateStr : string) : option Z :=
  match Number_ <$> split_on "-" dateStr with
  | Some y :: Some m :: Some d :: _ =>
      tv ← Date_UTC y (m - 1) d; Some (tv / msPerDay)
  | _ => None
  end.

(** ** The daily answer *)

(** [((day % n) + n) % n], with the truncating remainder of JavaScript. *)
Definition scheduleIndex (day n : Z) : Z := Z.rem (Z.rem day n + n) n.

(** The body of [pickDailyAnswer] once the day number is known. *)
Definition pickForDay (answerList : list Company) (day : Z) : option Company :=
  if bool_decide (length answerList = 0%nat) then None
  else
    let schedule := seededShuffle answerList ANSWER_SALT in
    let idx := scheduleIndex day (Z.of_nat (length schedule)) in
    schedule !! Z.to_nat idx.

(** A day number that is NaN indexes nothing: the answer is [undefined],
    which the callers test like [null]. *)
Definition pickDailyAnswer (answerList : list Company) (dateStr : string) : option Company :=
  if bool_decide (length answerList = 0%nat) then None
  else
    match getUTCDayNumber dateStr with
    | Some day => pickForDay answerList day
    | None => None
    end.

(** ** The persisted game state

    The value [JSON.parse] returns.  Numbers are the finite ones; an
    object is a finite map from its keys. *)

#[warnings="-register-all"] Inductive json : Type :=
  | JNull
  | JBool (b : bool)
  | JNum (q : Q)
  | JStr (s : string)
  | JArr (items : list json)
  | JObj (fields : gmap string json).

#[global] Instance JStr_inj : Inj (=) (=) JStr.
Proof. intros s1 s2 H. by injection H. Defined.

(** What [localStorage.getItem(STORAGE_KEY)] and [JSON.parse] make of
    the stored item: no item (or an empty text, which is falsy as well),
    a text that does not parse, or a text that parses to a value.  The
    storage itself is taken to be available: reading and writing the
    item succeed. *)
Inductive Stored : Type :=
  | Absent
  | Malformed
  | Text (parsed : json).

(** The object [loadState] returns and [submitGuess] updates.  The code
    reads and writes the three properties below; any other property of
    a stored object is carried along unread and is left out. *)
Record State : Type := mkState {
  date : string;
  guesses : list json;
  solved : bool
}.

(** [!!v] *)
Definition truthy (v : json) : bool :=
  match v with
  | JNull => false
  | JBool b => b
  | JNum q => negb (Qeq_bool q 0)
  | JStr s => negb (String.eqb s "")
  | JArr _ | JObj _ => true
  end.

(** [v.key]: only an object has the properties read here. *)
Definition getProp (v : json) (key : string) : option json :=
  match v with
  | JObj fields => fields !! key
  | _ => None
  end.

Definition freshState (today : string) : State :=
  mkState today [] false.

(** [parsed.date !== today] *)
Definition dateDiffers (parsed : json) (today : string) : bool :=
  match getProp parsed "date" with
  | Some (JStr d) => negb (String.eqb d today)
  | _ => true
  end.

(** The two coercions and the returned object. *)
Definition restoreState (parsed : json) (today : string) : State :=
  mkState today
    (match getProp parsed "guesses" with
     | Some (JArr items) => items
     | _ => []
     end)
    (match getProp parsed "solved" with
     | Some v => truthy v
     | None => false
     end).

(** The body of the [try] block. *)
Definition loadState_try (today : string) (item : Stored) : result State :=
  match item with
  | Absent => Ok (freshState today)
  | Malformed => Throw SyntaxError
  | Text parsed =>
      if negb (truthy parsed) || dateDiffers parsed today
      then Ok (freshState today)
      else Ok (restoreState parsed today)
  end.

(** [loadState], for the day [today] that [getTodayNY] reports. *)
Definition loadState (today : string) (item : Stored) : State :=
  match loadState_try today item with
  | Ok st => st
  | Throw _ => freshState today
  end.

Definition stateToJson (st : State) : json :=
  JObj (<["date" := JStr (date st)]>
        (<["guesses" := JArr (guesses st)]>
         (<["solved" := JBool (solved st)]> ∅))).

(** [saveState]: the stored item becomes the text of the state, which
    parses back to the same value. *)
Definition saveState (st : State) : Stored := Text (stateToJson st).

(** ** Module-level data and the page *)

Record Globals : Type := mkGlobals {
  companies : list Company;
  answerList : list Company;
  byTicker : gmap string Company;
  byName : gmap string Company;
  answer : option Company
}.

(** A cell of a guess row: its text, its class ([ok] or [bad], and the
    extra class of the company cell) and the arrow span, if one was
    appended. *)
Record Cell : Type := mkCell {
  cellText : string;
  cellOk : bool;
  cellExtra : string;
  cellArrow : Arrow
}.

Record UI : Type := mkUI {
  rows : list (list Cell);
  statusText : string;
  attemptsText : string;
  locked : bool;
  shareHidden : bool;
  guessInputValue : string;
  suggestions : list Company
}.

Definition setStatus (msg : string) (ui : UI) : UI :=
  mkUI (rows ui) msg (attemptsText ui) (locked ui) (shareHidden ui) (guessInputValue ui) (suggestions ui).

Definition setAttempts (used : nat) (ui : UI) : UI :=
  mkUI (rows ui) (statusText ui) (pretty used +:+ " / " +:+ pretty MAX_GUESSES)
       (locked ui) (shareHidden ui) (guessInputValue ui) (suggestions ui).

Definition lockUI (l : bool) (ui : UI) : UI :=
  mkUI (rows ui) (statusText ui) (attemptsText ui) l (shareHidden ui) (guessInputValue ui) (suggestions ui).

Definition prependRow (row : list Cell) (ui : UI) : UI :=
  mkUI (row :: rows ui) (statusText ui) (attemptsText ui) (locked ui) (shareHidden ui)
       (guessInputValue ui) (suggestions ui).

Definition clearInput (ui : UI) : UI :=
  mkUI (rows ui) (statusText ui) (attemptsText ui) (locked ui) (shareHidden ui) "" (suggestions ui).

Definition hideSuggestions (ui : UI) : UI :=
  mkUI (rows ui) (statusText ui) (attemptsText ui) (locked ui) (shareHidden ui) (guessInputValue ui) [].

Definition showShareButtonIfFinished (st : State) (ui : UI) : UI :=
  let finished := solved st || bool_decide (MAX_GUESSES ≤ length (guesses st))%nat in
  mkUI (rows ui) (statusText ui) (attemptsText ui) (locked ui) (negb finished)
       (guessInputValue ui) (suggestions ui).

(** ** Rendering a guess *)

(** [s || d] on a text that may be [null]. *)
Definition orText (s : option string) (d : string) : string :=
  match s with
  | Some t => if String.eqb t "" then d else t
  | None => d
  end.

Definition makeCell (text : string) (isOk : bool) (extraClass : string) : Cell :=
  mkCell text isOk extraClass NoArrow.

(** The arrow span is appended under [!isOk && arrow]. *)
Definition makeNumericCell (bucketLabel : string) (isOk : bool) (arrow : Arrow) : Cell :=
  mkCell bucketLabel isOk ""
    (if negb isOk then arrow else NoArrow).

(** The test of the four plain numeric cells. *)
Definition sameKnownBucket (g a : BucketResult) : bool :=
  (index g =? index a) && negb (index g =? -1).

(** The test of the P/E cell. *)
Definition peOk (g a : BucketResult) : bool :=
  ((index g =? -1) && (index a =? -1)) || ((index g =? index a) && negb (index g =? -1)).

Definition numericCell (gv av : value) (defs : list Bucket) : result Cell :=
  g ← bucketUpper gv defs;
  a ← bucketUpper av defs;
  mret (makeNumericCell (blabel g) (sameKnownBucket g a) (arrowFor gv av)).

Definition peCell (gv av : value) : result Cell :=
  g ← bucketUpper gv BUCKETS.pe;
  a ← bucketUpper av BUCKETS.pe;
  mret (makeNumericCell (blabel g) (peOk g a) (arrowFor gv av)).

(** The cells [renderGuessRow] appends to the row, in order: company,
    sector, hq, founded, price, market cap, employees, P/E. *)
Definition guessRow (guessCompany ans : Company) : result (list Cell) :=
  let isCompanyCorrect := String.eqb (ticker guessCompany) (ticker ans) in
  let c0 := makeCell (name guessCompany +:+ " (" +:+ ticker guessCompany +:+ ")"
                      +:+ (if isCompanyCorrect then " ✅" else ""))
                     isCompanyCorrect "company" in
  let c1 := makeCell (orText (sector guessCompany) "N/A")
                     (String.eqb (orText (sector guessCompany) "") (orText (sector ans) "")) "" in
  let c2 := makeCell (orText (hq guessCompany) "N/A")
                     (String.eqb (orText (hq guessCompany) "") (orText (hq ans) "")) "" in
  c3 ← numericCell (founded guessCompany) (founded ans) BUCKETS.founded;
  c4 ← numericCell (price guessCompany) (price ans) BUCKETS.price;
  c5 ← numericCell (marketCap guessCompany) (marketCap ans) BUCKETS.marketCap;
  c6 ← numericCell (employees guessCompany) (employees ans) BUCKETS.employees;
  c7 ← peCell (pe guessCompany) (pe ans);
  mret [c0; c1; c2; c3; c4; c5; c6; c7].

(** [renderGuessRow]: reading a property of a missing answer is a
    TypeError; the finished row goes on top of the board. *)
Definition renderGuessRow (G : Globals) (guessCompany : Company) (ui : UI) : result UI :=
  match answer G with
  | None => Throw TypeError
  | Some ans => row ← guessRow guessCompany ans; mret (prependRow row ui)
  end.

(** ** Share text *)

Inductive Tile : Type :=
  | Green
  | Black.

Definition tileText (t : Tile) : string :=
  match t with
  | Green => "🟩"
  | Black => "⬛"
  end.

Definition tileOf (ok : bool) : Tile := if ok then Green else Black.

Definition bucketTile (gv av : value) (defs : list Bucket) : result Tile :=
  g ← bucketUpper gv defs;
  a ← bucketUpper av defs;
  mret (tileOf (index g =? index a)).

Definition peTile (gv av : value) : result Tile :=
  g ← bucketUpper gv BUCKETS.pe;
  a ← bucketUpper av BUCKETS.pe;
  let gi := index g in
  let ai := index a in
  mret (tileOf (((gi =? -1) && (ai =? -1)) || ((gi =? ai) && negb (gi =? -1)))).

(** The seven tiles pushed for one guess. *)
Definition shareTiles (g ans : Company) : result (list Tile) :=
  let t1 := tileOf (String.eqb (orText (sector g) "") (orText (sector ans) "")) in
  let t2 := tileOf (String.eqb (orText (hq g) "") (orText (hq ans) "")) in
  t3 ← bucketTile (founded g) (founded ans) BUCKETS.founded;
  t4 ← bucketTile (price g) (price ans) BUCKETS.price;
  t5 ← bucketTile (marketCap g) (marketCap ans) BUCKETS.marketCap;
  t6 ← bucketTile (employees g) (employees ans) BUCKETS.employees;
  t7 ← peTile (pe g) (pe ans);
  mret [t1; t2; t3; t4; t5; t6; t7].

(** [byTicker.get(t)] for an element of the guess array. *)
Definition lookupGuess (G : Globals) (t : json) : option Company :=
  match t with
  | JStr s => byTicker G !! s
  | _ => None
  end.

(** The loop over [state.guesses]: a guess that is not in [byTicker] is
    skipped, the others contribute a line of tiles. *)
Fixpoint shareLines (G : Globals) (gs : list json) : result (list (list Tile)) :=
  match gs with
  | [] => mret []
  | t :: rest =>
      match lookupGuess G t with
      | None => shareLines G rest
      | Some g =>
          match answer G with
          | None => Throw TypeError
          | Some ans =>
              tiles ← shareTiles g ans;
              lines ← shareLines G rest;
              mret (tiles :: lines)
          end
      end
  end.

Definition resultLine (st : State) : string :=
  if solved st
  then "Solved in " +:+ pretty (length (guesses st)) +:+ "/" +:+ pretty MAX_GUESSES
  else "Unsolved (0/" +:+ pretty MAX_GUESSES +:+ ")".

Definition newline : string := String (Ascii.ascii_of_nat 10) EmptyString.

Definition lineText (tiles : list Tile) : string :=
  String.concat "" (tileText <$> tiles).

Definition makeShareText (G : Globals) (baseUrl : string) (st : State) : result string :=
  lines ← shareLines G (guesses st);
  mret ("Companydle " +:+ date st +:+ " — " +:+ resultLine st +:+ newline
        +:+ String.concat newline (lineText <$> lines) +:+ newline +:+ baseUrl).

(** ** Text utilities

    The texts of this program (tickers, company names, what the player
    types) are read as ASCII: case mapping touches the 26 letters, and
    white space is the ASCII white space. *)

Definition code (c : ascii) : nat := Ascii.nat_of_ascii c.

Definition toLowerChar (c : ascii) : ascii :=
  if (65 <=? code c)%nat && (code c <=? 90)%nat then Ascii.ascii_of_nat (code c + 32) else c.

Definition toUpperChar (c : ascii) : ascii :=
  if (97 <=? code c)%nat && (code c <=? 122)%nat then Ascii.ascii_of_nat (code c - 32) else c.

Fixpoint mapChars (f : ascii → ascii) (s : string) : string :=
  match s with
  | EmptyString => EmptyString
  | String c rest => String (f c) (mapChars f rest)
  end.

Definition toLowerCase : string → string := mapChars toLowerChar.
Definition toUpperCase : string → string := mapChars toUpperChar.

Definition isSpace (c : ascii) : bool :=
  ((9 <=? code c)%nat && (code c <=? 13)%nat) || (code c =? 32)%nat.

Fixpoint trimStart (s : string) : string :=
  match s with
  | EmptyString => EmptyString
  | String c rest => if isSpace c then trimStart rest else s
  end.

(** The text without its trailing white space. *)
Fixpoint trimEnd (s : string) : string :=
  match s with
  | EmptyString => EmptyString
  | String c rest =>
      match trimEnd rest with
      | EmptyString => if isSpace c then EmptyString else String c EmptyString
      | kept => String c kept
      end
  end.

Definition trim (s : string) : string := trimEnd (trimStart s).

(** [.replace(/&/g, " and ")] *)
Fixpoint replaceAmp (s : string) : string :=
  match s with
  | EmptyString => EmptyString
  | String c rest =>
      if Ascii.eqb c "&" then " and " +:+ replaceAmp rest else String c (replaceAmp rest)
  end.

Definition isLowerAlnum (c : ascii) : bool :=
  ((97 <=? code c)%nat && (code c <=? 122)%nat) || ((48 <=? code c)%nat && (code c <=? 57)%nat).

(** [.replace(/[^a-z0-9]+/g, " ")]: [inRun] tells that the previous
    character already belonged to the run being replaced. *)
Fixpoint collapseRuns (inRun : bool) (s : string) : string :=
  match s with
  | EmptyString => EmptyString
  | String c rest =>
      if isLowerAlnum c then String c (collapseRuns false rest)
      else if inRun then collapseRuns true rest
      else String " " (collapseRuns true rest)
  end.

(** [normalize(s)], with [None] for a missing argument. *)
Definition normalize (s : option string) : string :=
  trim (collapseRuns false (replaceAmp (toLowerCase (default "" s)))).

Fixpoint includesText (q s : string) : bool :=
  String.prefix q s ||
  match s with
  | EmptyString => false
  | String _ rest => includesText q rest
  end.

(** ** Suggestions *)

(** The loop over [companies], filling [prefix] and [contains]. *)
Fixpoint suggestionLoop (q : string) (cs : list Company) : list Company * list Company :=
  match cs with
  | [] => ([], [])
  | c :: rest =>
      let '(prefix, contains) := suggestionLoop q rest in
      let n := normalize (Some (name c)) in
      let t := toLowerCase (ticker c) in
      if String.prefix q n || String.prefix q t then (c :: prefix, contains)
      else if includesText q n || includesText q t then (prefix, c :: contains)
      else (prefix, contains)
  end.

Definition getSuggestions (G : Globals) (query : string) : list Company :=
  let q := normalize (Some query) in
  if String.eqb q "" then []
  else
    let '(prefix, contains) := suggestionLoop q (companies G) in
    take 12 (prefix ++ contains).

(** ** Core gameplay *)

Record World : Type := mkWorld {
  globals : Globals;
  today : string;
  stored : Stored;
  ui : UI
}.

Definition withUI (w : World) (u : UI) : World :=
  mkWorld (globals w) (today w) (stored w) u.

(** Which [return] of [submitGuess] was taken; the function itself
    returns nothing, the tag only names the path. *)
Inductive Outcome : Type :=
  | NoAnswer
  | AlreadySolved
  | OutOfGuesses
  | EmptyInput
  | NoMatch
  | DuplicateGuess
  | Accepted (company : Company).

(** [state.guesses.includes(t)] for a text [t]. *)
Definition includesTicker (gs : list json) (t : string) : bool :=
  existsb (fun v => match v with JStr s => String.eqb s t | _ => false end) gs.

(** The lookup of the typed text: ticker, then normalized name, then a
    suggestion if there is exactly one. *)
Definition resolveCompany (G : Globals) (raw : string) : option Company :=
  let qNorm := normalize (Some raw) in
  let qTicker := toUpperCase raw in
  match byTicker G !! qTicker with
  | Some c => Some c
  | None =>
      match byName G !! qNorm with
      | Some c => Some c
      | None =>
          match getSuggestions G raw with
          | [c] => Some c
          | _ => None
          end
      end
  end.

Definition answerLabel (ans : Company) : string :=
  name ans +:+ " (" +:+ ticker ans +:+ ")".

Definition submitGuess (w : World) (inputValue : option string) : result (Outcome * World) :=
  let G := globals w in
  let state := loadState (today w) (stored w) in
  match answer G with
  | None => mret (NoAnswer, w)
  | Some ans =>
      if solved state then
        mret (AlreadySolved,
              withUI w (showShareButtonIfFinished state (lockUI true
                (setStatus ("Already solved. Answer: " +:+ answerLabel ans +:+ ".") (ui w)))))
      else if bool_decide (MAX_GUESSES ≤ length (guesses state))%nat then
        mret (OutOfGuesses,
              withUI w (showShareButtonIfFinished state (lockUI true
                (setStatus ("Out of guesses. Answer was: " +:+ answerLabel ans +:+ ".") (ui w)))))
      else
        let raw := trim (default (guessInputValue (ui w)) inputValue) in
        if String.eqb raw "" then
          mret (EmptyInput, withUI w (setStatus "Type a company name or ticker." (ui w)))
        else
          match resolveCompany G raw with
          | None =>
              mret (NoMatch,
                    withUI w (setStatus "No match. Try the official company name or ticker." (ui w)))
          | Some company =>
              if includesTicker (guesses state) (ticker company) then
                mret (DuplicateGuess, withUI w (setStatus "You already guessed that one." (ui w)))
              else
                let state := mkState (date state) (guesses state ++ [JStr (ticker company)])
                                     (solved state) in
                u ← renderGuessRow G company (ui w);
                let u := hideSuggestions (clearInput u) in
                let '(state, u) :=
                  if String.eqb (ticker company) (ticker ans) then
                    (mkState (date state) (guesses state) true,
                     lockUI true (setStatus ("Correct! The answer is " +:+ answerLabel ans +:+ ".") u))
                  else if bool_decide (MAX_GUESSES ≤ length (guesses state))%nat then
                    (state,
                     lockUI true
                       (setStatus ("Out of guesses. Answer was: " +:+ answerLabel ans +:+ ".") u))
                  else (state, setStatus "Keep going!" u) in
                let u := setAttempts (length (guesses state)) u in
                mret (Accepted company,
                      mkWorld G (today w) (saveState state) (showShareButtonIfFinished state u))
          end
  end.

(** ** Escaping

    [str.replaceAll(c, r)] for a one-character pattern. *)

Fixpoint replaceAllChar (c : ascii) (r : string) (s : string) : string :=
  match s with
  | EmptyString => EmptyString
  | String x rest =>
      if Ascii.eqb x c then r +:+ replaceAllChar c r rest
      else String x (replaceAllChar c r rest)
  end.

Definition doubleQuote : ascii := Ascii.ascii_of_nat 34.

(** [escapeHtml]: the five replacements, in the order of the source. *)
Definition escapeHtml (str : option string) : string :=
  replaceAllChar "'" "&#39;"
    (replaceAllChar doubleQuote "&quot;"
      (replaceAllChar ">" "&gt;"
        (replaceAllChar "<" "&lt;"
          (replaceAllChar "&" "&amp;" (default "" str))))).

(** ** Start-up

    [init] fetches the list, coerces and sorts it, builds the two maps,
    picks the answer and draws the stored session.  The part embedded
    here starts from the coerced list in its two orders ([companies]
    sorted by name, [answerList] by ticker): the collation of
    [localeCompare] is the browser's. *)

(** The ticker [init] stores for a ticker given as text. *)
Definition coerceTicker (t : string) : string := toUpperCase (trim t).

(** [new Map(companies.map(c => [key(c), c]))]: a later entry replaces
    an earlier one with the same key. *)
Definition makeMap (key : Company → string) (cs : list Company) : gmap string Company :=
  foldl (fun m c => <[key c := c]> m) ∅ cs.

Definition makeByTicker : list Company → gmap string Company := makeMap ticker.
Definition makeByName : list Company → gmap string Company :=
  makeMap (fun c => normalize (Some (name c))).

Definition initGlobals (cs sortedByTicker : list Company) (todayNY : string) : Globals :=
  mkGlobals cs sortedByTicker (makeByTicker cs) (makeByName cs)
            (pickDailyAnswer sortedByTicker todayNY).

Definition clearBoard (ui : UI) : UI :=
  mkUI [] (statusText ui) (attemptsText ui) (locked ui) (shareHidden ui)
       (guessInputValue ui) (suggestions ui).

(** The loop of [hydrateFromState]: a stored guess that [byTicker] knows
    is drawn, the others are skipped. *)
Fixpoint renderStored (G : Globals) (gs : list json) (ui : UI) : result UI :=
  match gs with
  | [] => mret ui
  | t :: rest =>
      match lookupGuess G t with
      | Some c => u ← renderGuessRow G c ui; renderStored G rest u
      | None => renderStored G rest ui
      end
  end.

Definition hydrateFromState (G : Globals) (state : State) (ui : UI) : result UI :=
  u ← renderStored G (guesses state) (clearBoard ui);
  let u := setAttempts (length (guesses state)) u in
  u ← (if solved state then
         match answer G with
         | None => Throw TypeError
         | Some ans =>
             mret (lockUI true (setStatus ("Solved! Answer: " +:+ answerLabel ans +:+ ".") u))
         end
       else if bool_decide (MAX_GUESSES ≤ length (guesses state))%nat then
         match answer G with
         | None => Throw TypeError
         | Some ans =>
             mret (lockUI true
                     (setStatus ("Out of guesses. Answer was: " +:+ answerLabel ans +:+ ".") u))
         end
       else mret (lockUI false (setStatus "Make your first guess." u)));
  mret (showShareButtonIfFinished state u).

(** [init] from the coerced list on: without an answer the page is
    locked and nothing is drawn. *)
Definition init (cs sortedByTicker : list Company) (todayNY : string) (item : Stored)
    (ui : UI) : result World :=
  let G := initGlobals cs sortedByTicker todayNY in
  match answer G with
  | None => mret (mkWorld G todayNY item (lockUI true (setStatus "No data loaded." ui)))
  | Some _ =>
      u ← hydrateFromState G (loadState todayNY item) ui;
      mret (mkWorld G todayNY item u)
  end.

(** ** Events

    The listeners [init] installs.  Typing puts the text in the input
    box and shows the suggestions for it; Enter and the guess button
    submit the input box; a click on a suggestion submits its ticker;
    Escape and a click elsewhere hide the suggestions.  A click on the
    guess button is also a click outside the suggestions, so the
    listener of the document hides them after the submission; after a
    click on a suggestion that listener finds the suggestions either
    still holding the button or already hidden.  Every event is
    let through, also on a control that [lockUI] disabled.

    [loadState] reads the clock on every call, while the answer and the
    maps stay as [init] left them.  The passing of midnight in New York
    is the event [NewDay]: from then on [getTodayNY] reports the new
    day, and nothing else of the world changes. *)

Inductive Event : Type :=
  | TypeText (text : string)
  | PressEnter
  | ClickGuess
  | ClickSuggestion (i : nat)
  | PressEscape
  | ClickElsewhere
  | NewDay (day : string).

Definition showSuggestions (items : list Company) (ui : UI) : UI :=
  mkUI (rows ui) (statusText ui) (attemptsText ui) (locked ui) (shareHidden ui)
       (guessInputValue ui) items.

Definition setInput (text : string) (ui : UI) : UI :=
  mkUI (rows ui) (statusText ui) (attemptsText ui) (locked ui) (shareHidden ui)
       text (suggestions ui).

Definition handle (w : World) (ev : Event) : result World :=
  match ev with
  | TypeText text =>
      mret (withUI w (showSuggestions (getSuggestions (globals w) text)
                        (setInput text (ui w))))
  | PressEnter => r ← submitGuess w None; mret r.2
  | ClickGuess =>
      r ← submitGuess w None; mret (withUI r.2 (hideSuggestions (ui r.2)))
  | ClickSuggestion i =>
      match suggestions (ui w) !! i with
      | Some c => r ← submitGuess w (Some (ticker c)); mret r.2
      | None => mret w
      end
  | PressEscape | ClickElsewhere => mret (withUI w (hideSuggestions (ui w)))
  | NewDay day => mret (mkWorld (globals w) day (stored w) (ui w))
  end.

Fixpoint handleAll (w : World) (evs : list Event) : result World :=
  match evs with
  | [] => mret w
  | ev :: rest => w' ← handle w ev; handleAll w' rest
  end.

(** The event is not the passing of midnight. *)
Definition keepsDay (ev : Event) : bool :=
  match ev with
  | NewDay _ => false
  | _ => true
  end.

(** No midnight passes during the events. *)
Definition withinDay (evs : list Event) : bool := forallb keepsDay evs.

(** ** The text of a date

    The last line of [getTodayNY] joins the year, the two-digit month
    and the two-digit day of the formatter with dashes.  Which day the
    formatter reports is the browser's; the text of a given day is
    embedded, for years of four digits. *)

Definition digitChar (k : Z) : ascii := Ascii.ascii_of_nat (48 + Z.to_nat k).

Definition twoDigits (n : Z) : string :=
  String (digitChar (n / 10)) (String (digitChar (n mod 10)) EmptyString).

Definition fourDigits (n : Z) : string :=
  String (digitChar (n / 1000)) (String (digitChar (n / 100 mod 10)) (twoDigits (n mod 100))).

Definition dateText (y m d : Z) : string :=
  fourDigits y +:+ "-" +:+ twoDigits m +:+ "-" +:+ twoDigits d.

(** ** Notions used by the statements *)

(** Strictly increasing upper bounds, bucket after bucket. *)
Fixpoint increasingBounds (defs : list Bucket) : bool :=
  match defs with
  | b1 :: (b2 :: _) as rest => num_lt (upper b1) (upper b2) && increasingBounds rest
  | _ => true
  end.

(** A date text as [getTodayNY] yields it: three runs of digits joined
    by dashes, a year up to 9999, a month from 1 to 12 and a day from 1
    to 31. *)
Definition isCalendarDate (dateStr : string) : bool :=
  match split_on "-" dateStr with
  | [ys; ms; ds] =>
      match Number_ ys, Number_ ms, Number_ ds with
      | Some y, Some m, Some d =>
          (y <=? 9999) && (1 <=? m) && (m <=? 12) && (1 <=? d) && (d <=? 31)
      | _, _, _ => false
      end
  | _ => false
  end.

(** The calendar date of a day number counted from 1 January 1970, for
    the days up to the end of 2169: the year that holds the day is one
    of three candidates, the month is the last one that starts on or
    before the day of the year.  [monthOfYearDay] counts the months from
    0, as [Date.UTC] does. *)
Definition calendarHorizon : Z := 73049.

Definition yearOfDay (day : Z) : Z :=
  let y0 := 1970 + day / 366 in
  if day <? DayFromYear (y0 + 1) then y0
  else if day <? DayFromYear (y0 + 2) then y0 + 1
  else y0 + 2.

Definition monthOfYearDay (doy : Z) (leap : bool) : Z :=
  if doy <? monthStart 1 leap then 0
  else if doy <? monthStart 2 leap then 1
  else if doy <? monthStart 3 leap then 2
  else if doy <? monthStart 4 leap then 3
  else if doy <? monthStart 5 leap then 4
  else if doy <? monthStart 6 leap then 5
  else if doy <? monthStart 7 leap then 6
  else if doy <? monthStart 8 leap then 7
  else if doy <? monthStart 9 leap then 8
  else if doy <? monthStart 10 leap then 9
  else if doy <? monthStart 11 leap then 10
  else 11.

Definition civilFromDays (day : Z) : Z * Z * Z :=
  let y := yearOfDay day in
  let doy := day - DayFromYear y in
  let mn := monthOfYearDay doy (InLeapYear y) in
  (y, mn + 1, doy - monthStart mn (InLeapYear y) + 1).

(** The date text of a day number. *)
Definition dateOfDay (day : Z) : string :=
  let '(y, m, d) := civilFromDays day in dateText y m d.

(** Both values fall in the same bucket of the table, and that bucket
    is a real one. *)
Definition sameKnownIndex (gv av : value) (defs : list Bucket) : Prop :=
  ∃ g a, bucketUpper gv defs = Ok g ∧ bucketUpper av defs = Ok a
         ∧ index g = index a ∧ index g ≠ -1.

Definition bothUnknown (gv av : value) : bool := isUnknown gv && isUnknown av.

(** The match rule as the specification words it: the same real
    bucket, or two unknown values. *)
Definition specMatch (ok : bool) (gv av : value) (defs : list Bucket) : Prop :=
  ok = true ↔ (sameKnownIndex gv av defs ∨ bothUnknown gv av = true).

(** The tiles a displayed row stands for: one per attribute cell, green
    where the cell has class [ok].  The first cell is the company. *)
Definition displayedTiles (row : list Cell) : list Tile :=
  (fun c => tileOf (cellOk c)) <$> drop 1 row.

(** A session is finished, or still active. *)
Definition exhausted (st : State) : Prop :=
  solved st = false ∧ (MAX_GUESSES ≤ length (guesses st))%nat.

Definition active (st : State) : Prop :=
  solved st = false ∧ (length (guesses st) < MAX_GUESSES)%nat.

(** The typed text, after the fallback to the input box and the trim. *)
Definition rawInput (w : World) (inputValue : option string) : string :=
  trim (default (guessInputValue (ui w)) inputValue).

(** The state an accepted guess stores. *)
Definition acceptedState (st : State) (ans company : Company) : State :=
  mkState (date st) (guesses st ++ [JStr (ticker company)])
          (String.eqb (ticker company) (ticker ans)).

(** The guards of [submitGuess] that lead to an early [return]. *)
Definition rejects (w : World) (inputValue : option string) : Prop :=
  let st := loadState (today w) (stored w) in
  answer (globals w) = None
  ∨ solved st = true
  ∨ (MAX_GUESSES ≤ length (guesses st))%nat
  ∨ rawInput w inputValue = ""
  ∨ resolveCompany (globals w) (rawInput w inputValue) = None
  ∨ ∃ c, resolveCompany (globals w) (rawInput w inputValue) = Some c
         ∧ includesTicker (guesses st) (ticker c) = true.

(** The guards all passed: the guess goes through. *)
Definition accepts (w : World) (inputValue : option string) (ans company : Company) : Prop :=
  let st := loadState (today w) (stored w) in
  answer (globals w) = Some ans
  ∧ active st
  ∧ rawInput w inputValue ≠ ""
  ∧ resolveCompany (globals w) (rawInput w inputValue) = Some company
  ∧ includesTicker (guesses st) (ticker company) = false.

(** Texts in the shape [normalize] produces: lower-case letters and
    digits, in words separated by one space each.  [wordsTail] reads the
    text after a letter or digit. *)
Fixpoint wordsTail (s : string) : bool :=
  match s with
  | EmptyString => true
  | String c r =>
      if isLowerAlnum c then wordsTail r
      else Ascii.eqb c " " &&
           match r with
           | EmptyString => false
           | String d r' => isLowerAlnum d && wordsTail r'
           end
  end.

Definition normalForm (s : string) : bool :=
  match s with
  | EmptyString => true
  | String c r => isLowerAlnum c && wordsTail r
  end.

(** Letters, digits and single spaces; [afterSpace] tells that the
    previous character was a space. *)
Fixpoint spaced (afterSpace : bool) (s : string) : bool :=
  match s with
  | EmptyString => true
  | String c r =>
      if isLowerAlnum c then spaced false r
      else Ascii.eqb c " " && negb afterSpace && spaced true r
  end.

(** The character occurs in the text. *)
Fixpoint occurs (c : ascii) (s : string) : bool :=
  match s with
  | EmptyString => false
  | String x r => Ascii.eqb x c || occurs c r
  end.

Fixpoint allSpace (s : string) : bool :=
  match s with
  | EmptyString => true
  | String c r => isSpace c && allSpace r
  end.

(** The text is ASCII, where the case mapping of the model is the one
    of JavaScript. *)
Fixpoint asciiText (s : string) : bool :=
  match s with
  | EmptyString => true
  | String c r => (code c <? 128)%nat && asciiText r
  end.

(** The two tests of the suggestion loop. *)
Definition prefixMatch (q : string) (c : Company) : bool :=
  String.prefix q (normalize (Some (name c))) || String.prefix q (toLowerCase (ticker c)).

Definition containsMatch (q : string) (c : Company) : bool :=
  includesText q (normalize (Some (name c))) || includesText q (toLowerCase (ticker c)).

(** The board [hydrateFromState] draws for a guess list: the rows of
    the guesses that [byTicker] knows, the latest on top. *)
Definition boardRows (G : Globals) (ans : Company) (gs : list json) : list (list Cell) :=
  foldl (fun rs t =>
           match lookupGuess G t with
           | Some c => match guessRow c ans with Ok row => row :: rs | Throw _ => rs end
           | None => rs
           end) [] gs.

(** What a reload redraws from the stored session: the board, the
    attempts counter, the lock and the share button. *)
Definition viewOf (ui : UI) : list (list Cell) * string * bool * bool :=
  (rows ui, attemptsText ui, locked ui, shareHidden ui).

Definition finished (st : State) : bool :=
  solved st || bool_decide (MAX_GUESSES ≤ length (guesses st))%nat.

(** A session as play from an empty one leaves it: no guess twice, at
    most eight guesses, solved exactly when the answer's ticker is among
    the guesses, and then it is the last one. *)
Definition wellPlayed (ans : Company) (st : State) : Prop :=
  NoDup (guesses st)
  ∧ (length (guesses st) ≤ MAX_GUESSES)%nat
  ∧ (solved st = true ↔ JStr (ticker ans) ∈ guesses st)
  ∧ (solved st = true → last (guesses st) = Some (JStr (ticker ans))).

(** Every company that a typed text can resolve to is the one
    [byTicker] holds under its ticker. *)
Definition indexedByTicker (G : Globals) : Prop :=
  ∀ raw c, resolveCompany G raw = Some c → byTicker G !! ticker c = Some c.

(** The two ways an event can leave the world.  Either the stored
    session, the board and the counter stay, and the lock and the share
    button stay too or, on a finished session, are set as for a finished
    session. *)
Definition keepsSession (w w' : World) : Prop :=
  stored w' = stored w
  ∧ rows (ui w') = rows (ui w) ∧ attemptsText (ui w') = attemptsText (ui w)
  ∧ ((locked (ui w') = locked (ui w) ∧ shareHidden (ui w') = shareHidden (ui w))
     ∨ (finished (loadState (today w) (stored w)) = true
        ∧ locked (ui w') = true ∧ shareHidden (ui w') = false)).

(** Or a guess went through: its ticker is stored at the end of the
    list and its row is on top of the board. *)
Definition addsGuess (w w' : World) (ans c : Company) (row : list Cell) : Prop :=
  let st' := acceptedState (loadState (today w) (stored w)) ans c in
  (∃ inputValue, accepts w inputValue ans c)
  ∧ guessRow c ans = Ok row
  ∧ stored w' = saveState st'
  ∧ rows (ui w') = row :: rows (ui w)
  ∧ attemptsText (ui w') = pretty (length (guesses st')) +:+ " / " +:+ pretty MAX_GUESSES
  ∧ locked (ui w') = (if finished st' then true else locked (ui w))
  ∧ shareHidden (ui w') = negb (finished st').

(** The page shows what a reload would draw from the stored session. *)
Definition redrawn (w : World) : Prop :=
  ∀ u, ∃ uh, hydrateFromState (globals w) (loadState (today w) (stored w)) u = Ok uh
             ∧ viewOf (ui w) = viewOf uh.

(** ** Sample data

    A three-company list used to run the functions: ACM has no market
    capitalisation, employee count or P/E on record, BET has no P/E and
    its founding year was supplied as text that is not a number. *)

Module Sample.
Definition acme : Company :=
  mkCompany "Acme Corp" "ACM" (Some "Industrials") (Some "Ohio")
            (Num (Fin 1985)) (Num (Fin 42)) Null Null Null.
Definition beta : Company :=
  mkCompany "Beta Inc" "BET" (Some "Technology") None
            (Num NaN) (Num (Fin 50)) (Num (Fin 20000000000)) Null Null.
Definition gamma : Company :=
  mkCompany "Gamma & Sons" "GAM" None (Some "Texas")
            (Num (Fin 1899)) (Num (Fin 25)) (Num (Fin 9000000000)) (Num (Fin 10000))
            (Num (Fin 31)).

Definition roster : list Company := [acme; beta; gamma].

Definition G : Globals :=
  mkGlobals roster roster
    (<["ACM" := acme]> (<["BET" := beta]> (<["GAM" := gamma]> ∅)))
    (<["acme corp" := acme]> (<["beta inc" := beta]> (<["gamma and sons" := gamma]> ∅)))
    (Some acme).

Definition day : string := "2024-01-01".

Definition page : UI := mkUI [] "" "" false true "" [].

Definition world (item : Stored) : World := mkWorld G day item page.

(** Eight wrong guesses, none of them a listed ticker. *)
Definition lost : State :=
  mkState day (JStr <$> ["A"; "B"; "C"; "D"; "E"; "F"; "G"; "H"]) false.

Definition won : State := mkState day [JStr "BET"; JStr "ACM"] true.
End Sample.

(** * Properties *)

(** ** The functions on known inputs *)

Example cyrb53_a : cyrb53 "a" 0 = 7929297801672961.
Proof. vm_compute. reflexivity. Qed.

Example mulberry32_first_draw : (mulberry32_next (mulberry32 1)).1 = 2693262067.
Proof. vm_compute. reflexivity. Qed.

Example seededShuffle_ten :
  seededShuffle [1; 2; 3; 4; 5; 6; 7; 8; 9; 10] ANSWER_SALT = [7; 8; 10; 3; 2; 5; 9; 1; 4; 6].
Proof. vm_compute. reflexivity. Qed.

Example getUTCDayNumber_dates :
  getUTCDayNumber "1970-01-01" = Some 0
  ∧ getUTCDayNumber "1969-12-31" = Some (-1)
  ∧ getUTCDayNumber "2000-03-01" = Some 11017
  ∧ getUTCDayNumber "2024-02-29" = Some 19782
  ∧ getUTCDayNumber "2024-01" = None.
Proof. vm_compute. by repeat split. Qed.

Example scheduleIndex_negative_day : scheduleIndex (-7) 5 = 3.
Proof. reflexivity. Qed.

Example normalize_name : normalize (Some "  AT&T  Inc. ") = "at and t inc".
Proof. vm_compute. reflexivity. Qed.

Example bucketUpper_boundaries :
  bucketUpper (Num (Fin 1899)) BUCKETS.founded = Ok (mkBucketResult "<1900" 0)
  ∧ bucketUpper (Num (Fin 1900)) BUCKETS.founded = Ok (mkBucketResult "1900–1949" 1)
  ∧ bucketUpper (Num (Fin 2010)) BUCKETS.founded = Ok (mkBucketResult "2010+" 5)
  ∧ bucketUpper (Num PosInf) BUCKETS.founded = Ok (mkBucketResult "2010+" 5)
  ∧ bucketUpper (Num (Fin 7)) [] = Throw TypeError.
Proof. vm_compute. by repeat split. Qed.

(** ** Order of numbers *)

Lemma Qltb_lt (x y : Q) : Qltb x y = true ↔ (x < y)%Q.
Proof.
  unfold Qltb. rewrite negb_true_iff. split.
  - intros H. apply Qnot_le_lt. intros Hle.
    apply Qle_bool_iff in Hle. congruence.
  - intros H. destruct (Qle_bool y x) eqn:E; [|done].
    apply Qle_bool_iff in E. exfalso. by eapply Qlt_not_le.
Qed.

Lemma Qltb_ge (x y : Q) : Qltb x y = false ↔ (y <= x)%Q.
Proof.
  unfold Qltb. rewrite negb_false_iff. apply Qle_bool_iff.
Qed.

Lemma num_lt_irrefl (a : num) : num_lt a a = false.
Proof.
  destruct a; simpl; try done. apply Qltb_ge, Qle_refl.
Qed.

Lemma num_lt_asym (a b : num) : num_lt a b = true → num_lt b a = false.
Proof.
  destruct a, b; simpl; try done.
  rewrite Qltb_lt, Qltb_ge. apply Qlt_le_weak.
Qed.

Lemma num_lt_trans (a b c : num) :
  num_lt a b = true → num_lt b c = true → num_lt a c = true.
Proof.
  destruct a, b, c; simpl; try done.
  rewrite !Qltb_lt. apply Qlt_trans.
Qed.

(** [===] is compatible with [<] on both sides. *)
Lemma num_eq_lt_l (x b c : num) : num_eq x b = true → num_lt x c = num_lt b c.
Proof.
  destruct x, b; simpl; try done.
  intros H%Qeq_bool_iff. destruct c; simpl; try done.
  apply eq_true_iff_eq. rewrite !Qltb_lt. by rewrite H.
Qed.

Lemma num_eq_lt_r (x b c : num) : num_eq x b = true → num_lt c x = num_lt c b.
Proof.
  destruct x, b; simpl; try done; destruct c; simpl; try done.
  intros H%Qeq_bool_iff.
  apply eq_true_iff_eq. rewrite !Qltb_lt. by rewrite H.
Qed.

Lemma num_eq_sym (a b : num) : num_eq a b = num_eq b a.
Proof.
  destruct a, b; simpl; try done.
  apply eq_true_iff_eq. rewrite !Qeq_bool_iff. split; intros H; by symmetry.
Qed.

(** Two numbers, neither NaN, are equal or ordered one way. *)
Lemma num_trichotomy (a b : num) :
  a ≠ NaN → b ≠ NaN → num_eq a b = false →
  (num_lt a b = true ∧ num_lt b a = false) ∨ (num_lt a b = false ∧ num_lt b a = true).
Proof.
  intros Ha Hb. destruct a, b; simpl; try done; auto.
  intros Hne. destruct (Q_dec q q0) as [[Hlt|Hgt]|Heq].
  - left. split; [by apply Qltb_lt | apply Qltb_ge; by apply Qlt_le_weak].
  - right. split; [apply Qltb_ge; by apply Qlt_le_weak | by apply Qltb_lt].
  - apply Qeq_bool_iff in Heq. congruence.
Qed.

(** ** Buckets *)

Lemma bucketScan_Some (x : num) (defs : list Bucket) :
  ∀ i r, bucketScan x i defs = Some r →
  ∃ k b, defs !! k = Some b ∧ index r = Z.of_nat (i + k) ∧ blabel r = label b
         ∧ num_lt x (upper b) = true
         ∧ ∀ k' b', (k' < k)%nat → defs !! k' = Some b' → num_lt x (upper b') = false.
Proof.
  induction defs as [|b rest IH]; intros i r; simpl; [done|].
  destruct (num_lt x (upper b)) eqn:Hb.
  - intros [= <-]. exists 0%nat, b. simpl.
    repeat split; try done; [f_equal; lia | intros; lia].
  - intros (k & b0 & Hk & Hi & Hl & Hlt & Hmin)%IH.
    exists (S k), b0. repeat split; try done; [rewrite Hi; f_equal; lia|].
    intros [|k'] b' Hlt'; simpl; [by intros [= <-]|].
    apply Hmin. lia.
Qed.

Lemma bucketScan_None (x : num) (defs : list Bucket) :
  ∀ i, bucketScan x i defs = None →
  ∀ k b, defs !! k = Some b → num_lt x (upper b) = false.
Proof.
  induction defs as [|b rest IH]; intros i; simpl; [done|].
  destruct (num_lt x (upper b)) eqn:Hb; [done|].
  intros Hn [|k] b0; simpl; [by intros [= <-]|]. by eapply IH.
Qed.

Lemma increasingBounds_head (rest : list Bucket) :
  ∀ b1, increasingBounds (b1 :: rest) = true →
  ∀ j bj, rest !! j = Some bj → num_lt (upper b1) (upper bj) = true.
Proof.
  induction rest as [|b2 rest IH]; intros b1 H j bj; [done|].
  simpl in H. apply andb_true_iff in H as [H12 Hrest].
  destruct j as [|j]; simpl.
  - by intros [= <-].
  - intros Hj. eapply num_lt_trans; [exact H12|]. by eapply IH.
Qed.

Lemma increasingBounds_tail (b : Bucket) (rest : list Bucket) :
  increasingBounds (b :: rest) = true → increasingBounds rest = true.
Proof.
  destruct rest; [done|]. simpl. by intros [_ ?]%andb_true_iff.
Qed.

Lemma increasingBounds_pairs (defs : list Bucket) :
  increasingBounds defs = true →
  ∀ i j bi bj, (i < j)%nat → defs !! i = Some bi → defs !! j = Some bj →
  num_lt (upper bi) (upper bj) = true.
Proof.
  induction defs as [|b rest IH]; intros H i j bi bj Hij; [done|].
  destruct j as [|j]; [lia|]. destruct i as [|i]; simpl.
  - intros [= <-] Hj. by eapply increasingBounds_head.
  - apply IH; [by eapply increasingBounds_tail | lia].
Qed.

(** What [bucketUpper] returns on a number that is not NaN: the first
    bucket above the value, or the last bucket when there is none. *)
Lemma bucketUpper_present (x : num) (defs : list Bucket) :
  x ≠ NaN → defs ≠ [] →
  ∃ r k b, bucketUpper (Num x) defs = Ok r ∧ index r = Z.of_nat k
    ∧ defs !! k = Some b ∧ blabel r = label b
    ∧ (∀ k' b', (k' < k)%nat → defs !! k' = Some b' → num_lt x (upper b') = false)
    ∧ (num_lt x (upper b) = true
       ∨ (S k = length defs ∧ num_lt x (upper b) = false)).
Proof.
  intros Hx Hdefs.
  assert (bucketUpper (Num x) defs =
          match bucketScan x 0 defs with
          | Some r => Ok r
          | None => match last defs with
                    | Some b => Ok (mkBucketResult (label b) (Z.of_nat (length defs) - 1))
                    | None => Throw TypeError
                    end
          end) as -> by (by destruct x).
  destruct (bucketScan x 0 defs) as [r|] eqn:Hscan.
  - apply bucketScan_Some in Hscan as (k & b & Hk & Hi & Hl & Hlt & Hmin).
    exists r, k, b. repeat split; auto.
  - destruct (last defs) as [b|] eqn:Hlast; [|by apply last_None in Hlast].
    rewrite last_lookup in Hlast.
    assert (length defs ≠ 0%nat) by (by destruct defs).
    eexists _, (pred (length defs)), b. repeat split; simpl; try done; try lia.
    + intros k' b' _ Hk'. by eapply bucketScan_None.
    + right. split; [lia|]. by eapply bucketScan_None.
Qed.

(** C6: on a non-empty table with strictly increasing bounds, a number
    goes to the first bucket whose upper bound is strictly above it; a
    number equal to the bound of a bucket that has a successor goes to
    that successor; the last bucket takes every number that is below no
    earlier bound; [null], [undefined] and NaN give the index -1, which
    no number gets. *)
Theorem bucketUpper_first_bucket_above (defs : list Bucket) (x : num) :
  defs ≠ [] → increasingBounds defs = true → x ≠ NaN →
  (∃ r k b, bucketUpper (Num x) defs = Ok r ∧ index r = Z.of_nat k
     ∧ defs !! k = Some b ∧ blabel r = label b
     ∧ (∀ k' b', (k' < k)%nat → defs !! k' = Some b' → num_lt x (upper b') = false)
     ∧ (num_lt x (upper b) = true ∨ S k = length defs)
     ∧ (∀ i bi, defs !! i = Some bi → num_eq x (upper bi) = true →
          (S i < length defs)%nat → k = S i)
     ∧ ((∀ k' b', (S k' < length defs)%nat → defs !! k' = Some b' →
           num_lt x (upper b') = false) → S k = length defs)
     ∧ index r ≠ -1)
  ∧ (∀ v, isUnknown v = true → bucketUpper v defs = Ok (mkBucketResult "N/A" (-1))).
Proof.
  intros Hdefs Hinc Hx. split.
  - destruct (bucketUpper_present x defs Hx Hdefs)
      as (r & k & b & Hr & Hi & Hk & Hl & Hmin & Hlast).
    exists r, k, b. repeat split; try done.
    + destruct Hlast as [?|[? _]]; auto.
    + intros i bi Hbi Heq Hnext.
      destruct (lookup_lt_is_Some_2 defs (S i) Hnext) as [bn Hbn].
      assert (num_lt x (upper bn) = true) as Hn.
      { rewrite (num_eq_lt_l _ _ _ Heq).
        eapply (increasingBounds_pairs defs Hinc i (S i)); eauto. }
      assert (∀ k' b', (k' ≤ i)%nat → defs !! k' = Some b' →
                       num_lt x (upper b') = false) as Hlow.
      { intros k' b' Hle Hb'. rewrite (num_eq_lt_l _ _ _ Heq).
        destruct (decide (k' = i)) as [->|Hne].
        - assert (b' = bi) as -> by congruence. apply num_lt_irrefl.
        - apply num_lt_asym.
          eapply (increasingBounds_pairs defs Hinc k' i); eauto. lia. }
      destruct (Nat.lt_trichotomy k (S i)) as [Hlt|[->|Hgt]]; [|done|].
      * assert (num_lt x (upper b) = false) as Hb by (apply (Hlow k b); [lia|done]).
        destruct Hlast as [?|[? _]]; [congruence|lia].
      * rewrite (Hmin (S i) bn Hgt Hbn) in Hn. done.
    + intros Hall. destruct Hlast as [Hlt|[? _]]; [|done].
      apply lookup_lt_Some in Hk as Hklen.
      destruct (decide (S k = length defs)); [done|].
      rewrite (Hall k b) in Hlt; [done|lia|done].
    + lia.
  - intros v Hv. by destruct v as [| |[]].
Qed.

Lemma bucketUpper_first_bucket_above_witness :
  BUCKETS.founded ≠ [] ∧ increasingBounds BUCKETS.founded = true ∧ Fin 1950 ≠ NaN
  ∧ bucketUpper (Num (Fin 1950)) BUCKETS.founded = Ok (mkBucketResult "1950–1969" 2)
  ∧ bucketUpper Null BUCKETS.founded = Ok (mkBucketResult "N/A" (-1)).
Proof.
  assert (BUCKETS.founded ≠ []) as H1 by discriminate.
  assert (increasingBounds BUCKETS.founded = true) as H2 by (vm_compute; reflexivity).
  assert (Fin 1950 ≠ NaN) as H3 by discriminate.
  destruct (bucketUpper_first_bucket_above BUCKETS.founded (Fin 1950) H1 H2 H3)
    as [_ Hnull].
  split; [exact H1|]. split; [exact H2|]. split; [exact H3|].
  split; [vm_compute; reflexivity|].
  exact (Hnull Null eq_refl).
Defined.

Lemma bucketUpper_ok (v : value) (defs : list Bucket) :
  defs ≠ [] → ∃ r, bucketUpper v defs = Ok r.
Proof.
  intros Hdefs. destruct (isUnknown v) eqn:Hv.
  - exists (mkBucketResult "N/A" (-1)). by destruct v as [| |[]].
  - destruct v as [| |x]; try done.
    destruct (bucketUpper_present x defs) as (r & _ & _ & Hr & _); eauto.
    by intros ->.
Qed.

(** The index is -1 exactly on [null], [undefined] and NaN. *)
Lemma bucketUpper_index_unknown (v : value) (defs : list Bucket) (r : BucketResult) :
  bucketUpper v defs = Ok r → (index r = -1 ↔ isUnknown v = true).
Proof.
  destruct (isUnknown v) eqn:Hv.
  - destruct v as [| |[]]; try done; by intros [= <-].
  - destruct v as [| |x]; try done. intros Hr.
    assert (defs ≠ []) as Hdefs.
    { intros ->. by destruct x. }
    assert (x ≠ NaN) as Hx by (by intros ->).
    destruct (bucketUpper_present x defs Hx Hdefs) as (r' & k & _ & Hr' & Hi & _).
    assert (r' = r) as -> by congruence. split; [lia|done].
Qed.

Lemma numericCell_ok (gv av : value) (defs : list Bucket) :
  defs ≠ [] →
  ∃ g a, bucketUpper gv defs = Ok g ∧ bucketUpper av defs = Ok a
    ∧ numericCell gv av defs
      = Ok (makeNumericCell (blabel g) (sameKnownBucket g a) (arrowFor gv av)).
Proof.
  intros Hdefs.
  destruct (bucketUpper_ok gv defs Hdefs) as [g Hg].
  destruct (bucketUpper_ok av defs Hdefs) as [a Ha].
  exists g, a. unfold numericCell. by rewrite Hg, Ha.
Qed.

Lemma peCell_ok (gv av : value) :
  ∃ g a, bucketUpper gv BUCKETS.pe = Ok g ∧ bucketUpper av BUCKETS.pe = Ok a
    ∧ peCell gv av = Ok (makeNumericCell (blabel g) (peOk g a) (arrowFor gv av)).
Proof.
  destruct (bucketUpper_ok gv BUCKETS.pe) as [g Hg]; [done|].
  destruct (bucketUpper_ok av BUCKETS.pe) as [a Ha]; [done|].
  exists g, a. unfold peCell. by rewrite Hg, Ha.
Qed.

Lemma sameKnownBucket_iff (gv av : value) (defs : list Bucket) (g a : BucketResult) :
  bucketUpper gv defs = Ok g → bucketUpper av defs = Ok a →
  (sameKnownBucket g a = true ↔ sameKnownIndex gv av defs).
Proof.
  intros Hg Ha. unfold sameKnownBucket, sameKnownIndex.
  rewrite andb_true_iff, negb_true_iff, Z.eqb_eq, Z.eqb_neq. split.
  - intros [? ?]. by exists g, a.
  - intros (g' & a' & Hg' & Ha' & ? & ?).
    assert (g' = g) as -> by congruence. by assert (a' = a) as -> by congruence.
Qed.

Lemma peOk_iff (gv av : value) (g a : BucketResult) :
  bucketUpper gv BUCKETS.pe = Ok g → bucketUpper av BUCKETS.pe = Ok a →
  specMatch (peOk g a) gv av BUCKETS.pe.
Proof.
  intros Hg Ha. unfold specMatch, peOk, bothUnknown.
  rewrite orb_true_iff, !andb_true_iff.
  rewrite <- (bucketUpper_index_unknown _ _ _ Hg), <- (bucketUpper_index_unknown _ _ _ Ha).
  rewrite <- (sameKnownBucket_iff _ _ _ _ _ Hg Ha). unfold sameKnownBucket.
  rewrite andb_true_iff, !Z.eqb_eq. tauto.
Qed.

(** The eight cells of a row, spelled out. *)
Lemma guessRow_cells (g ans : Company) :
  ∃ f fa p pa m ma e ea q qa,
    bucketUpper (founded g) BUCKETS.founded = Ok f
    ∧ bucketUpper (founded ans) BUCKETS.founded = Ok fa
    ∧ bucketUpper (price g) BUCKETS.price = Ok p
    ∧ bucketUpper (price ans) BUCKETS.price = Ok pa
    ∧ bucketUpper (marketCap g) BUCKETS.marketCap = Ok m
    ∧ bucketUpper (marketCap ans) BUCKETS.marketCap = Ok ma
    ∧ bucketUpper (employees g) BUCKETS.employees = Ok e
    ∧ bucketUpper (employees ans) BUCKETS.employees = Ok ea
    ∧ bucketUpper (pe g) BUCKETS.pe = Ok q
    ∧ bucketUpper (pe ans) BUCKETS.pe = Ok qa
    ∧ guessRow g ans = Ok
        [ makeCell (name g +:+ " (" +:+ ticker g +:+ ")"
                    +:+ (if String.eqb (ticker g) (ticker ans) then " ✅" else ""))
                   (String.eqb (ticker g) (ticker ans)) "company";
          makeCell (orText (sector g) "N/A")
                   (String.eqb (orText (sector g) "") (orText (sector ans) "")) "";
          makeCell (orText (hq g) "N/A")
                   (String.eqb (orText (hq g) "") (orText (hq ans) "")) "";
          makeNumericCell (blabel f) (sameKnownBucket f fa) (arrowFor (founded g) (founded ans));
          makeNumericCell (blabel p) (sameKnownBucket p pa) (arrowFor (price g) (price ans));
          makeNumericCell (blabel m) (sameKnownBucket m ma)
                          (arrowFor (marketCap g) (marketCap ans));
          makeNumericCell (blabel e) (sameKnownBucket e ea)
                          (arrowFor (employees g) (employees ans));
          makeNumericCell (blabel q) (peOk q qa) (arrowFor (pe g) (pe ans)) ]
    ∧ shareTiles g ans = Ok
        [ tileOf (String.eqb (orText (sector g) "") (orText (sector ans) ""));
          tileOf (String.eqb (orText (hq g) "") (orText (hq ans) ""));
          tileOf (index f =? index fa);
          tileOf (index p =? index pa);
          tileOf (index m =? index ma);
          tileOf (index e =? index ea);
          tileOf (peOk q qa) ].
Proof.
  destruct (bucketUpper_ok (founded g) BUCKETS.founded) as [f Hf]; [done|].
  destruct (bucketUpper_ok (founded ans) BUCKETS.founded) as [fa Hfa]; [done|].
  destruct (bucketUpper_ok (price g) BUCKETS.price) as [p Hp]; [done|].
  destruct (bucketUpper_ok (price ans) BUCKETS.price) as [pa Hpa]; [done|].
  destruct (bucketUpper_ok (marketCap g) BUCKETS.marketCap) as [m Hm]; [done|].
  destruct (bucketUpper_ok (marketCap ans) BUCKETS.marketCap) as [ma Hma]; [done|].
  destruct (bucketUpper_ok (employees g) BUCKETS.employees) as [e He]; [done|].
  destruct (bucketUpper_ok (employees ans) BUCKETS.employees) as [ea Hea]; [done|].
  destruct (bucketUpper_ok (pe g) BUCKETS.pe) as [q Hq]; [done|].
  destruct (bucketUpper_ok (pe ans) BUCKETS.pe) as [qa Hqa]; [done|].
  exists f, fa, p, pa, m, ma, e, ea, q, qa.
  repeat (split; [assumption|]).
  unfold guessRow, shareTiles, numericCell, peCell, bucketTile, peTile, peOk.
  rewrite Hf, Hfa, Hp, Hpa, Hm, Hma, He, Hea, Hq, Hqa. done.
Qed.

(** ** The match rule of the numeric cells *)

(** C2, as the code has it: in a displayed row the P/E cell is a match
    exactly when both values fall in the same real bucket or both are
    unknown, and two unknown P/E values show a match without an arrow;
    the founded, price, market-cap and employees cells are a match
    exactly when both values fall in the same real bucket. *)
Theorem guessRow_match_rule (g ans : Company) :
  ∃ c0 c1 c2 c3 c4 c5 c6 c7,
    guessRow g ans = Ok [c0; c1; c2; c3; c4; c5; c6; c7]
    ∧ (cellOk c3 = true ↔ sameKnownIndex (founded g) (founded ans) BUCKETS.founded)
    ∧ (cellOk c4 = true ↔ sameKnownIndex (price g) (price ans) BUCKETS.price)
    ∧ (cellOk c5 = true ↔ sameKnownIndex (marketCap g) (marketCap ans) BUCKETS.marketCap)
    ∧ (cellOk c6 = true ↔ sameKnownIndex (employees g) (employees ans) BUCKETS.employees)
    ∧ specMatch (cellOk c7) (pe g) (pe ans) BUCKETS.pe
    ∧ (bothUnknown (pe g) (pe ans) = true → cellOk c7 = true ∧ cellArrow c7 = NoArrow).
Proof.
  destruct (guessRow_cells g ans)
    as (f & fa & p & pa & m & ma & e & ea & q & qa
        & Hf & Hfa & Hp & Hpa & Hm & Hma & He & Hea & Hq & Hqa & Hrow & _).
  do 8 eexists. split; [exact Hrow|]. simpl.
  split; [by apply sameKnownBucket_iff|].
  split; [by apply sameKnownBucket_iff|].
  split; [by apply sameKnownBucket_iff|].
  split; [by apply sameKnownBucket_iff|].
  split; [by apply peOk_iff|].
  intros Hboth.
  assert (peOk q qa = true) as Hok.
  { apply (peOk_iff _ _ _ _ Hq Hqa). by right. }
  by rewrite Hok.
Qed.

Lemma guessRow_match_rule_witness :
  bothUnknown (pe Sample.beta) (pe Sample.acme) = true
  ∧ ∃ c0 c1 c2 c3 c4 c5 c6 c7,
      guessRow Sample.beta Sample.acme = Ok [c0; c1; c2; c3; c4; c5; c6; c7]
      ∧ cellOk c7 = true ∧ cellArrow c7 = NoArrow.
Proof.
  split; [reflexivity|].
  destruct (guessRow_match_rule Sample.beta Sample.acme)
    as (c0 & c1 & c2 & c3 & c4 & c5 & c6 & c7 & Hrow & _ & _ & _ & _ & _ & Hpe).
  exists c0, c1, c2, c3, c4, c5, c6, c7.
  split; [exact Hrow|]. apply Hpe. reflexivity.
Defined.

(** C2 as stated fails on the founded cell: two companies without a
    founding year are both unknown, and the cell is not a match. *)
Lemma founded_cell_rejects_two_unknowns :
  ∃ c, numericCell Null Null BUCKETS.founded = Ok c
       ∧ bothUnknown Null Null = true
       ∧ cellOk c = false
       ∧ ¬ specMatch (cellOk c) Null Null BUCKETS.founded.
Proof.
  eexists. split; [reflexivity|]. split; [reflexivity|]. split; [reflexivity|].
  simpl. unfold specMatch. intros [_ H].
  discriminate H. by right.
Qed.

(** ** Symmetry of the match, direction of the arrow *)

Lemma sameKnownBucket_sym (g a : BucketResult) : sameKnownBucket g a = sameKnownBucket a g.
Proof.
  unfold sameKnownBucket. rewrite (Z.eqb_sym (index a) (index g)).
  destruct (index g =? index a) eqn:E; [|done].
  apply Z.eqb_eq in E. by rewrite E.
Qed.

Lemma peOk_sym (g a : BucketResult) : peOk g a = peOk a g.
Proof.
  unfold peOk. rewrite (Z.eqb_sym (index a) (index g)).
  destruct (index g =? index a) eqn:E.
  - apply Z.eqb_eq in E. by rewrite E.
  - rewrite !andb_false_l, !orb_false_r. apply andb_comm.
Qed.

(** The match of a numeric cell does not depend on which value is the
    guess and which the answer. *)
Lemma numericCell_match_sym (a b : value) (defs : list Bucket) :
  cellOk <$> numericCell a b defs = cellOk <$> numericCell b a defs
  ∨ defs = [].
Proof.
  destruct defs as [|d defs]; [by right|left].
  destruct (numericCell_ok a b (d :: defs)) as (ga & gb & Ha & Hb & ->); [done|].
  destruct (numericCell_ok b a (d :: defs)) as (gb' & ga' & Hb' & Ha' & ->); [done|].
  assert (ga' = ga) as -> by congruence. assert (gb' = gb) as -> by congruence.
  simpl. f_equal. apply sameKnownBucket_sym.
Qed.

Lemma peCell_match_sym (a b : value) :
  cellOk <$> peCell a b = cellOk <$> peCell b a.
Proof.
  destruct (peCell_ok a b) as (ga & gb & Ha & Hb & ->).
  destruct (peCell_ok b a) as (gb' & ga' & Hb' & Ha' & ->).
  assert (ga' = ga) as -> by congruence. assert (gb' = gb) as -> by congruence.
  simpl. f_equal. apply peOk_sym.
Qed.

(** On numbers that are not NaN the arrow follows the order: up below
    the answer, down above it, none on equal values, and swapping two
    unequal values swaps up and down. *)
Lemma arrowFor_numbers (g a : num) :
  g ≠ NaN → a ≠ NaN →
  (arrowFor (Num g) (Num a) = Up ↔ num_lt g a = true)
  ∧ (arrowFor (Num g) (Num a) = Down ↔ num_lt a g = true)
  ∧ (arrowFor (Num g) (Num a) = NoArrow ↔ num_eq g a = true)
  ∧ (num_eq g a = false →
     (arrowFor (Num g) (Num a) = Up ↔ arrowFor (Num a) (Num g) = Down)).
Proof.
  intros Hg Ha. unfold arrowFor. rewrite (num_eq_sym a g).
  destruct (num_eq g a) eqn:Heq.
  - rewrite (num_eq_lt_l _ _ _ Heq), num_lt_irrefl.
    rewrite (num_eq_lt_r _ _ _ Heq), num_lt_irrefl. by repeat split.
  - destruct (num_trichotomy g a Hg Ha Heq) as [[-> ->]|[-> ->]]; by repeat split.
Qed.

Lemma arrowFor_null (v : value) :
  arrowFor Null v = NoArrow ∧ arrowFor v Null = NoArrow
  ∧ arrowFor Undefined v = NoArrow ∧ arrowFor v Undefined = NoArrow.
Proof. by destruct v. Qed.

(** C7 at NaN: a guess whose value is NaN is unknown to [bucketUpper]
    and is not above the answer, yet [arrowFor] answers down, both ways
    round, and the price cell shows "N/A" with that arrow. *)
Theorem arrowFor_NaN_points_down :
  isUnknown (Num NaN) = true
  ∧ num_lt (Fin 5) NaN = false
  ∧ arrowFor (Num NaN) (Num (Fin 5)) = Down
  ∧ arrowFor (Num (Fin 5)) (Num NaN) = Down
  ∧ numericCell (Num NaN) (Num (Fin 5)) BUCKETS.price = Ok (mkCell "N/A" false "" Down).
Proof. by repeat split. Qed.

(** ** Share tiles against the displayed row *)

Lemma plain_tile_agrees (gv av : value) (defs : list Bucket) (g a : BucketResult) :
  bucketUpper gv defs = Ok g → bucketUpper av defs = Ok a →
  bothUnknown gv av = false →
  sameKnownBucket g a = (index g =? index a).
Proof.
  intros Hg Ha Hboth. unfold sameKnownBucket.
  destruct (index g =? index a) eqn:E; [|done]. simpl.
  apply Z.eqb_eq in E. apply negb_true_iff, Z.eqb_neq. intros Hm.
  assert (isUnknown gv = true) as Hgv by (by apply (bucketUpper_index_unknown _ _ _ Hg)).
  assert (isUnknown av = true) as Hav
    by (apply (bucketUpper_index_unknown _ _ _ Ha); congruence).
  unfold bothUnknown in Hboth. by rewrite Hgv, Hav in Hboth.
Qed.

(** Where no plain numeric attribute is unknown on both sides, the share
    tiles are the tiles of the displayed row; the sector, headquarters
    and P/E tiles agree in every case. *)
Lemma shareTiles_agree_without_unknown_pairs (g ans : Company) :
  bothUnknown (founded g) (founded ans) = false →
  bothUnknown (price g) (price ans) = false →
  bothUnknown (marketCap g) (marketCap ans) = false →
  bothUnknown (employees g) (employees ans) = false →
  ∃ row tiles, guessRow g ans = Ok row ∧ shareTiles g ans = Ok tiles
               ∧ displayedTiles row = tiles.
Proof.
  intros H1 H2 H3 H4.
  destruct (guessRow_cells g ans)
    as (f & fa & p & pa & m & ma & e & ea & q & qa
        & Hf & Hfa & Hp & Hpa & Hm & Hma & He & Hea & Hq & Hqa & Hrow & Htiles).
  do 2 eexists. split; [exact Hrow|]. split; [exact Htiles|].
  unfold displayedTiles. simpl.
  rewrite (plain_tile_agrees _ _ _ _ _ Hf Hfa H1), (plain_tile_agrees _ _ _ _ _ Hp Hpa H2),
    (plain_tile_agrees _ _ _ _ _ Hm Hma H3), (plain_tile_agrees _ _ _ _ _ He Hea H4).
  done.
Qed.

(** C1 at a company without market capitalisation: the player guesses
    ACM on the day ACM is the answer.  The row shows the market-cap and
    employees cells as misses ("N/A" on both sides is not a match), the
    share text paints all seven tiles green. *)
Theorem share_tiles_differ_from_displayed_row :
  ∃ w row text,
    submitGuess (Sample.world Absent) (Some "acme") = Ok (Accepted Sample.acme, w)
    ∧ rows (ui w) = [row]
    ∧ displayedTiles row = [Green; Green; Green; Green; Black; Black; Green]
    ∧ shareLines Sample.G (guesses (loadState Sample.day (stored w)))
      = Ok [[Green; Green; Green; Green; Green; Green; Green]]
    ∧ makeShareText Sample.G "https://companydle.example/" (loadState Sample.day (stored w))
      = Ok text
    ∧ text = "Companydle 2024-01-01 — Solved in 1/8" +:+ newline
             +:+ "🟩🟩🟩🟩🟩🟩🟩" +:+ newline +:+ "https://companydle.example/".
Proof.
  do 3 eexists. split; [vm_compute; reflexivity|].
  split; [vm_compute; reflexivity|].
  split; [vm_compute; reflexivity|].
  split; [vm_compute; reflexivity|].
  split; vm_compute; reflexivity.
Qed.

(** ** The header of the share text *)

Lemma shareLines_ok (G : Globals) (ans : Company) (gs : list json) :
  answer G = Some ans → ∃ lines, shareLines G gs = Ok lines.
Proof.
  intros Hans. induction gs as [|t rest [lines IH]]; simpl; [by eexists|].
  destruct (lookupGuess G t) as [g|]; [|by eexists].
  rewrite Hans.
  destruct (guessRow_cells g ans)
    as (f & fa & p & pa & m & ma & e & ea & q & qa & _ & _ & _ & _ & _ & _ & _ & _ & _ & _
        & _ & ->).
  rewrite IH. by eexists.
Qed.

(** C10: the share text opens with the game name, the date and the
    result line; an unsolved session is reported as "Unsolved (0/8)"
    whatever the number of guesses, a solved one as "Solved in n/8" with
    n the number of guesses. *)
Theorem makeShareText_header (G : Globals) (baseUrl : string) (st : State) (ans : Company) :
  answer G = Some ans →
  ∃ text body,
    makeShareText G baseUrl st = Ok text
    ∧ text = "Companydle " +:+ date st +:+ " — " +:+ resultLine st +:+ newline +:+ body
    ∧ (solved st = false → resultLine st = "Unsolved (0/8)")
    ∧ (solved st = true →
       resultLine st = "Solved in " +:+ pretty (length (guesses st)) +:+ "/8").
Proof.
  intros Hans. destruct (shareLines_ok G ans (guesses st) Hans) as [lines Hlines].
  unfold makeShareText. rewrite Hlines. simpl.
  do 2 eexists. split; [reflexivity|]. split; [reflexivity|].
  unfold resultLine. split; intros ->; reflexivity.
Qed.

Lemma makeShareText_header_witness :
  answer Sample.G = Some Sample.acme
  ∧ exhausted Sample.lost
  ∧ ∃ text body,
      makeShareText Sample.G "https://companydle.example/" Sample.lost = Ok text
      ∧ text = "Companydle 2024-01-01 — Unsolved (0/8)" +:+ newline +:+ body.
Proof.
  split; [reflexivity|]. split; [split; [reflexivity|vm_compute; lia]|].
  destruct (makeShareText_header Sample.G "https://companydle.example/" Sample.lost
              Sample.acme eq_refl) as (text & body & Htext & Heq & Hun & _).
  exists text, body. split; [exact Htext|].
  rewrite Heq, (Hun eq_refl). reflexivity.
Defined.

(** ** Loading the stored state *)

Lemma dateDiffers_false (parsed : json) (today : string) :
  dateDiffers parsed today = false ↔ getProp parsed "date" = Some (JStr today).
Proof.
  unfold dateDiffers. destruct (getProp parsed "date") as [[| | |d| |]|]; try done.
  rewrite negb_false_iff, String.eqb_eq. split; [by intros ->|by intros [= ->]].
Qed.

Lemma loadState_stale (today : string) (parsed : json) :
  getProp parsed "date" ≠ Some (JStr today) →
  loadState today (Text parsed) = freshState today.
Proof.
  intros Hdate. unfold loadState. simpl.
  destruct (truthy parsed); [|done]. simpl.
  destruct (dateDiffers parsed today) eqn:Hd; [done|].
  by apply dateDiffers_false in Hd.
Qed.

Lemma loadState_today (today : string) (parsed : json) :
  getProp parsed "date" = Some (JStr today) →
  loadState today (Text parsed) = restoreState parsed today.
Proof.
  intros Hdate. unfold loadState. simpl.
  assert (truthy parsed = true) as -> by (by destruct parsed).
  apply dateDiffers_false in Hdate. by rewrite Hdate.
Qed.

(** C8: a missing item, a text that does not parse and a record whose
    date is not today's all load as the fresh state of today; an
    exception in the try block is answered the same way; a record of
    today is restored with [guesses] replaced by the empty list unless
    it is an array and [solved] replaced by its truth value. *)
Theorem loadState_fresh_or_restored (today : string) (item : Stored) :
  (∀ e, loadState_try today item = Throw e →
        loadState today item = mkState today [] false)
  ∧ (item = Absent → loadState today item = mkState today [] false)
  ∧ (item = Malformed → loadState today item = mkState today [] false)
  ∧ (∀ parsed, item = Text parsed → getProp parsed "date" ≠ Some (JStr today) →
       loadState today item = mkState today [] false)
  ∧ (∀ parsed, item = Text parsed → getProp parsed "date" = Some (JStr today) →
       loadState today item
       = mkState today
           (match getProp parsed "guesses" with Some (JArr items) => items | _ => [] end)
           (match getProp parsed "solved" with Some v => truthy v | None => false end)).
Proof.
  repeat split.
  - unfold loadState. by intros e ->.
  - by intros ->.
  - by intros ->.
  - intros parsed -> Hdate. by apply loadState_stale.
  - intros parsed -> Hdate. by apply loadState_today.
Qed.

Lemma loadState_fresh_or_restored_witness :
  getProp (JObj (<["date" := JStr "2023-12-31"]> (<["guesses" := JArr [JStr "ACM"]]> ∅)))
          "date" ≠ Some (JStr Sample.day)
  ∧ loadState Sample.day
      (Text (JObj (<["date" := JStr "2023-12-31"]> (<["guesses" := JArr [JStr "ACM"]]> ∅))))
    = mkState Sample.day [] false
  ∧ getProp (JObj (<["date" := JStr Sample.day]>
                   (<["guesses" := JStr "ACM"]> (<["solved" := JNum 1]> ∅))))
            "date" = Some (JStr Sample.day)
  ∧ loadState Sample.day
      (Text (JObj (<["date" := JStr Sample.day]>
                   (<["guesses" := JStr "ACM"]> (<["solved" := JNum 1]> ∅)))))
    = mkState Sample.day [] true.
Proof.
  assert (getProp (JObj (<["date" := JStr "2023-12-31"]>
                         (<["guesses" := JArr [JStr "ACM"]]> ∅)))
                  "date" ≠ Some (JStr Sample.day)) as H1 by (vm_compute; discriminate).
  assert (getProp (JObj (<["date" := JStr Sample.day]>
                         (<["guesses" := JStr "ACM"]> (<["solved" := JNum 1]> ∅))))
                  "date" = Some (JStr Sample.day)) as H2 by (vm_compute; reflexivity).
  split; [exact H1|]. split.
  - destruct (loadState_fresh_or_restored Sample.day
                (Text (JObj (<["date" := JStr "2023-12-31"]>
                             (<["guesses" := JArr [JStr "ACM"]]> ∅)))))
      as (_ & _ & _ & Hstale & _).
    exact (Hstale _ eq_refl H1).
  - split; [exact H2|].
    destruct (loadState_fresh_or_restored Sample.day
                (Text (JObj (<["date" := JStr Sample.day]>
                             (<["guesses" := JStr "ACM"]> (<["solved" := JNum 1]> ∅))))))
      as (_ & _ & _ & _ & Hsame).
    exact (Hsame _ eq_refl H2).
Defined.

(** Saving and loading on the same day gives the state back. *)
Lemma loadState_saveState (today : string) (st : State) :
  date st = today → loadState today (saveState st) = st.
Proof.
  intros <-. destruct st as [d gs s]. unfold saveState, stateToJson. simpl.
  rewrite loadState_today by apply lookup_insert_eq.
  unfold restoreState, getProp.
  rewrite (lookup_insert_ne _ "date" "guesses"), lookup_insert_eq by done.
  rewrite (lookup_insert_ne _ "date" "solved"), (lookup_insert_ne _ "guesses" "solved"),
    lookup_insert_eq by done.
  done.
Qed.

(** ** The schedule *)

Lemma u32_range (z : Z) : 0 ≤ u32 z < 2 ^ 32.
Proof. unfold u32. apply Z.mod_pos_bound. lia. Qed.

Lemma lxor_range (a b : Z) :
  0 ≤ a < 2 ^ 32 → 0 ≤ b < 2 ^ 32 → 0 ≤ Z.lxor a b < 2 ^ 32.
Proof.
  intros Ha Hb.
  assert (0 ≤ Z.lxor a b) as Hnn by (apply Z.lxor_nonneg; lia).
  split; [done|].
  destruct (decide (Z.lxor a b = 0)) as [->|Hz]; [lia|].
  apply Z.log2_lt_pow2; [lia|].
  pose proof (Z.log2_lxor a b (proj1 Ha) (proj1 Hb)) as Hlog.
  assert (Z.log2 a < 32) by
    (destruct (decide (a = 0)) as [->|]; [done|apply Z.log2_lt_pow2; lia]).
  assert (Z.log2 b < 32) by
    (destruct (decide (b = 0)) as [->|]; [done|apply Z.log2_lt_pow2; lia]).
  lia.
Qed.

Lemma xor32_range (a b : Z) : 0 ≤ xor32 a b < 2 ^ 32.
Proof. unfold xor32. apply lxor_range; apply u32_range. Qed.

Lemma mulberry32_next_range (t : Z) : 0 ≤ (mulberry32_next t).1 < 2 ^ 32.
Proof. unfold mulberry32_next. simpl. apply xor32_range. Qed.

(** The index drawn at step [i] lies in [0, i]. *)
Lemma shuffle_index_bound (u : Z) (i : nat) :
  0 ≤ u < 2 ^ 32 → (randomIndex u i ≤ i)%nat.
Proof.
  intros Hu. unfold randomIndex.
  assert (u * (Z.of_nat i + 1) / 2 ^ 32 < Z.of_nat i + 1).
  { apply Z.div_lt_upper_bound; [lia|]. nia. }
  assert (0 ≤ u * (Z.of_nat i + 1) / 2 ^ 32) by (apply Z.div_pos; lia).
  lia.
Qed.

Section ShuffleFacts.
Context {A : Type}.
Implicit Types a : list A.

Lemma swap_perm (i j : nat) a : swap i j a ≡ₚ a.
Proof.
  unfold swap. destruct (a !! i) as [x|] eqn:Hi; [|done].
  destruct (a !! j) as [y|] eqn:Hj; [|done].
  by apply Permutation_insert_swap.
Qed.

(** At step [i] of the loop both indices are inside the array. *)
Lemma swap_in_range (i : nat) (u : Z) a :
  (i < length a)%nat → 0 ≤ u < 2 ^ 32 →
  ∃ x y, a !! i = Some x ∧ a !! randomIndex u i = Some y
         ∧ swap i (randomIndex u i) a = <[randomIndex u i:=x]> (<[i:=y]> a).
Proof.
  intros Hi Hu. pose proof (shuffle_index_bound u i Hu) as Hj.
  destruct (lookup_lt_is_Some_2 a i Hi) as [x Hx].
  destruct (lookup_lt_is_Some_2 a (randomIndex u i)) as [y Hy]; [lia|].
  exists x, y. unfold swap. by rewrite Hx, Hy.
Qed.

Lemma swap_length (i j : nat) a : length (swap i j a) = length a.
Proof.
  unfold swap. destruct (a !! i); [|done]. destruct (a !! j); [|done].
  by rewrite !length_insert.
Qed.

(** Inside the array the swap exchanges the two elements. *)
Lemma swap_lookup (i j : nat) a x y :
  a !! i = Some x → a !! j = Some y →
  swap i j a !! i = Some y ∧ swap i j a !! j = Some x.
Proof.
  intros Hi Hj. unfold swap. rewrite Hi, Hj.
  apply lookup_lt_Some in Hi as Hil. apply lookup_lt_Some in Hj as Hjl.
  split.
  - destruct (decide (i = j)) as [->|Hne].
    + rewrite list_lookup_insert_eq by (by rewrite length_insert). congruence.
    + rewrite list_lookup_insert_ne by done. by rewrite list_lookup_insert_eq.
  - rewrite list_lookup_insert_eq by (by rewrite length_insert). done.
Qed.

Lemma shuffleLoop_perm (i : nat) : ∀ t a, shuffleLoop i t a ≡ₚ a.
Proof.
  induction i as [|i IH]; intros t a; simpl; [done|].
  destruct (mulberry32_next t) as [u t']. rewrite IH. apply swap_perm.
Qed.

Lemma seededShuffle_perm (arr : list A) (seedStr : string) :
  seededShuffle arr seedStr ≡ₚ arr.
Proof. apply shuffleLoop_perm. Qed.
End ShuffleFacts.

(** For a positive length the index is the non-negative residue. *)
Lemma scheduleIndex_mod (day n : Z) : 0 < n → scheduleIndex day n = day mod n.
Proof.
  intros Hn. unfold scheduleIndex.
  pose proof (Z.rem_bound_abs day n ltac:(lia)) as Hb.
  pose proof (Z.quot_rem' day n) as Hq.
  rewrite Z.rem_mod_nonneg by lia.
  replace (Z.rem day n + n) with (day + (1 - Z.quot day n) * n) by lia.
  apply Z_mod_plus_full.
Qed.

Lemma pickForDay_lookup (answerList : list Company) (day : Z) :
  answerList ≠ [] →
  pickForDay answerList day
  = seededShuffle answerList ANSWER_SALT
      !! Z.to_nat (day mod Z.of_nat (length answerList)).
Proof.
  intros Hne. unfold pickForDay.
  rewrite bool_decide_eq_false_2 by (by destruct answerList).
  rewrite (Permutation_length (seededShuffle_perm answerList ANSWER_SALT)).
  rewrite scheduleIndex_mod; [done|]. destruct answerList; [done|simpl; lia].
Qed.

Lemma mod_window_inj (s a b n : Z) :
  0 ≤ a < n → 0 ≤ b < n → (s + a) mod n = (s + b) mod n → a = b.
Proof.
  intros Ha Hb [q Hq]%Z.cong_iff_ex.
  assert (q = 0) as -> by nia. lia.
Qed.

(** ** Calendar dates and their day numbers *)

(** A year has 365 days, a leap year one more. *)
Lemma DayFromYear_succ (y : Z) :
  DayFromYear (y + 1) = DayFromYear y + 365 + (if InLeapYear y then 1 else 0).
Proof.
  unfold DayFromYear, InLeapYear.
  destruct (Z.eqb_spec (y mod 4) 0), (Z.eqb_spec (y mod 100) 0),
    (Z.eqb_spec (y mod 400) 0);
    cbn [andb orb negb]; Z.div_mod_to_equations; lia.
Qed.

(** Up to the horizon [yearOfDay] is the year that holds the day. *)
Lemma yearOfDay_spec (day : Z) :
  0 ≤ day < 73049 →
  1970 ≤ yearOfDay day ≤ 2169
  ∧ DayFromYear (yearOfDay day) ≤ day < DayFromYear (yearOfDay day + 1).
Proof.
  intros H. unfold yearOfDay.
  assert (0 ≤ day / 366 ≤ 199) by (Z.div_mod_to_equations; lia).
  set (q := day / 366) in *.
  assert (366 * q ≤ day < 366 * q + 366) by (subst q; Z.div_mod_to_equations; lia).
  clearbody q.
  destruct (Z.ltb_spec day (DayFromYear (1970 + q + 1)));
    [unfold DayFromYear in *; Z.div_mod_to_equations; lia|].
  destruct (Z.ltb_spec day (DayFromYear (1970 + q + 2)));
    [unfold DayFromYear in *; Z.div_mod_to_equations; lia|].
  unfold DayFromYear in *; Z.div_mod_to_equations; lia.
Qed.

(** The month found holds the day of the year. *)
Lemma monthOfYearDay_spec (doy : Z) (leap : bool) :
  0 ≤ doy < 365 + (if leap then 1 else 0) →
  0 ≤ monthOfYearDay doy leap ≤ 11 ∧
  0 ≤ doy - monthStart (monthOfYearDay doy leap) leap ≤ 30.
Proof.
  intros H. unfold monthOfYearDay.
  repeat match goal with
  | |- context [?a <? ?b] => destruct (Z.ltb_spec a b)
  end; destruct leap;
  repeat match goal with
  | H : context [monthStart ?a ?b] |- _ =>
      let v := eval vm_compute in (monthStart a b) in
      change (monthStart a b) with v in H
  | |- context [monthStart ?a ?b] =>
      let v := eval vm_compute in (monthStart a b) in
      change (monthStart a b) with v
  end; lia.
Qed.

(** The digit characters, and the texts built from them. *)
Lemma digitChar_code k : 0 ≤ k ≤ 9 → Z.of_nat (Ascii.nat_of_ascii (digitChar k)) = 48 + k.
Proof.
  intros H. unfold digitChar. rewrite Ascii.nat_ascii_embedding.
  - rewrite Nat2Z.inj_add, Z2Nat.id by lia. reflexivity.
  - apply Nat2Z.inj_lt. rewrite Nat2Z.inj_add, Z2Nat.id by lia.
    change (Z.of_nat 48) with 48. change (Z.of_nat 256) with 256. lia.
Qed.

Lemma digitValue_digitChar k : 0 ≤ k ≤ 9 → digitValue (digitChar k) = Some k.
Proof.
  intros H. unfold digitValue. rewrite digitChar_code by done.
  destruct (Z.leb_spec 48 (48 + k)); [|lia].
  destruct (Z.leb_spec (48 + k) 57); [|lia].
  simpl. f_equal. lia.
Qed.

Lemma digitChar_not_dash k : 0 ≤ k ≤ 9 → Ascii.eqb (digitChar k) "-" = false.
Proof.
  intros H. apply Ascii.eqb_neq. intros E.
  pose proof (digitChar_code k H) as Hc. rewrite E in Hc.
  change (Z.of_nat (Ascii.nat_of_ascii "-")) with 45 in Hc. lia.
Qed.

Lemma Number_twoDigits n : 0 ≤ n ≤ 99 → Number_ (twoDigits n) = Some n.
Proof.
  intros H. unfold Number_, twoDigits. cbn [digitsValue].
  rewrite !digitValue_digitChar by (Z.div_mod_to_equations; lia).
  f_equal. Z.div_mod_to_equations; lia.
Qed.

Lemma Number_fourDigits n : 0 ≤ n ≤ 9999 → Number_ (fourDigits n) = Some n.
Proof.
  intros H. unfold Number_, fourDigits, twoDigits. cbn [digitsValue].
  rewrite !digitValue_digitChar by (Z.div_mod_to_equations; lia).
  f_equal. Z.div_mod_to_equations; lia.
Qed.

Lemma split_on_dateText y m d :
  0 ≤ y ≤ 9999 → 0 ≤ m ≤ 99 → 0 ≤ d ≤ 99 →
  split_on "-" (dateText y m d) = [fourDigits y; twoDigits m; twoDigits d].
Proof.
  intros Hy Hm Hd. unfold dateText, fourDigits, twoDigits.
  cbv [append]. cbn [split_on].
  rewrite !digitChar_not_dash by (Z.div_mod_to_equations; lia).
  reflexivity.
Qed.

(** [Number] of a run of digits is never negative. *)
Lemma digitsValue_nonneg (s : string) : ∀ acc v, 0 ≤ acc → digitsValue s acc = Some v → 0 ≤ v.
Proof.
  induction s as [|c r IH]; intros acc v Hacc; simpl.
  - intros [= <-]. done.
  - unfold digitValue.
    destruct ((48 <=? Z.of_nat (Ascii.nat_of_ascii c)) && (Z.of_nat (Ascii.nat_of_ascii c) <=? 57)) eqn:Hd;
      [|done].
    apply andb_prop in Hd as [H1%Z.leb_le H2%Z.leb_le].
    apply IH. lia.
Qed.

Lemma monthStart_bound (mn : Z) (leap : bool) :
  0 ≤ mn ≤ 11 → 0 ≤ monthStart mn leap ≤ 335.
Proof.
  intros H.
  assert (mn = 0 ∨ mn = 1 ∨ mn = 2 ∨ mn = 3 ∨ mn = 4 ∨ mn = 5 ∨ mn = 6
          ∨ mn = 7 ∨ mn = 8 ∨ mn = 9 ∨ mn = 10 ∨ mn = 11) as Hc by lia.
  destruct leap;
    repeat (destruct Hc as [->|Hc]; [vm_compute; split; discriminate|]);
    subst mn; vm_compute; split; discriminate.
Qed.

(** A date text of three numeric parts in the calendar ranges has a day
    number: [Date.UTC] stays far inside the range of time values. *)
Lemma getUTCDayNumber_parts (dateStr ys ms ds : string) (y m d : Z) :
  split_on "-" dateStr = [ys; ms; ds] →
  Number_ ys = Some y → Number_ ms = Some m → Number_ ds = Some d →
  y ≤ 9999 → 1 ≤ m ≤ 12 → 1 ≤ d ≤ 31 →
  getUTCDayNumber dateStr
  = Some (MakeDay (if (0 <=? y) && (y <=? 99) then 1900 + y else y) (m - 1) d).
Proof.
  intros Hs Hy Hm Hd Hyr Hmr Hdr.
  assert (0 ≤ y) as Hy0 by (by eapply (digitsValue_nonneg ys 0)).
  unfold getUTCDayNumber. rewrite Hs. cbn [fmap list_fmap]. rewrite Hy, Hm, Hd.
  unfold Date_UTC.
  set (yr := if (0 <=? y) && (y <=? 99) then 1900 + y else y).
  assert (0 ≤ yr ≤ 9999) as Hyrb.
  { subst yr. destruct (Z.leb_spec 0 y), (Z.leb_spec y 99); simpl; lia. }
  clearbody yr.
  assert (-800000 ≤ MakeDay yr (m - 1) d ≤ 3000000) as Hb.
  { unfold MakeDay.
    replace ((m - 1) / 12) with 0 by (Z.div_mod_to_equations; lia).
    replace ((m - 1) mod 12) with (m - 1) by (Z.div_mod_to_equations; lia).
    pose proof (monthStart_bound (m - 1) (InLeapYear (yr + 0)) ltac:(lia)).
    unfold DayFromYear. Z.div_mod_to_equations; lia. }
  unfold msPerDay.
  destruct (Z.gtb_spec (Z.abs (MakeDay yr (m - 1) d * 86400000)) 8640000000000000) as [Hgt|_];
    [lia|].
  cbn [mbind option_bind]. f_equal. apply Z.div_mul. done.
Qed.

Lemma isCalendarDate_has_day (dateStr : string) :
  isCalendarDate dateStr = true → ∃ day, getUTCDayNumber dateStr = Some day.
Proof.
  unfold isCalendarDate. intros H.
  destruct (split_on "-" dateStr) as [|ys [|ms [|ds [|]]]] eqn:Hs; try done.
  destruct (Number_ ys) as [y|] eqn:Hy; [|done].
  destruct (Number_ ms) as [m|] eqn:Hm; [|done].
  destruct (Number_ ds) as [d|] eqn:Hd; [|done].
  repeat (apply andb_prop in H as [H ?]).
  eexists. eapply getUTCDayNumber_parts; eauto; lia.
Qed.

(** The text written for a date is read back as that date. *)
Lemma dateText_day (y m d : Z) :
  100 ≤ y ≤ 9999 → 1 ≤ m ≤ 12 → 1 ≤ d ≤ 31 →
  isCalendarDate (dateText y m d) = true
  ∧ getUTCDayNumber (dateText y m d) = Some (MakeDay y (m - 1) d).
Proof.
  intros Hy Hm Hd.
  pose proof (split_on_dateText y m d ltac:(lia) ltac:(lia) ltac:(lia)) as Hs.
  pose proof (Number_fourDigits y ltac:(lia)) as Hny.
  pose proof (Number_twoDigits m ltac:(lia)) as Hnm.
  pose proof (Number_twoDigits d ltac:(lia)) as Hnd.
  split.
  - unfold isCalendarDate. rewrite Hs, Hny, Hnm, Hnd.
    repeat (apply andb_true_intro; split); apply Z.leb_le; lia.
  - rewrite (getUTCDayNumber_parts _ _ _ _ y m d Hs Hny Hnm Hnd) by lia.
    destruct (Z.leb_spec 0 y), (Z.leb_spec y 99); simpl; (done || lia).
Qed.

(** Up to the horizon the date text of a day has that day number. *)
Lemma dateOfDay_day (day : Z) :
  0 ≤ day < calendarHorizon →
  isCalendarDate (dateOfDay day) = true ∧ getUTCDayNumber (dateOfDay day) = Some day.
Proof.
  unfold calendarHorizon. intros H.
  destruct (yearOfDay_spec day H) as [Hy Hday].
  rewrite DayFromYear_succ in Hday.
  unfold dateOfDay, civilFromDays.
  set (y := yearOfDay day) in *.
  set (doy := day - DayFromYear y).
  destruct (monthOfYearDay_spec doy (InLeapYear y)) as [Hm Hd]; [subst doy; lia|].
  set (mn := monthOfYearDay doy (InLeapYear y)) in *.
  destruct (dateText_day y (mn + 1) (doy - monthStart mn (InLeapYear y) + 1))
    as [Hc Hn]; [lia..|].
  split; [exact Hc|]. rewrite Hn. f_equal. unfold MakeDay.
  replace ((mn + 1 - 1) / 12) with 0 by (Z.div_mod_to_equations; lia).
  replace ((mn + 1 - 1) mod 12) with mn by (Z.div_mod_to_equations; lia).
  replace (y + 0) with y by lia. subst doy. lia.
Qed.

Lemma pickDailyAnswer_lookup (answerList : list Company) (dateStr : string) (day : Z) :
  answerList ≠ [] → getUTCDayNumber dateStr = Some day →
  pickDailyAnswer answerList dateStr
  = seededShuffle answerList ANSWER_SALT
      !! Z.to_nat (day mod Z.of_nat (length answerList)).
Proof.
  intros Hne Hday. unfold pickDailyAnswer.
  rewrite bool_decide_eq_false_2 by (by destruct answerList).
  rewrite Hday. by apply pickForDay_lookup.
Qed.

(** C3: for a non-empty list of distinct companies the schedule index
    is the residue of the day number, in [0, n), for every integer day
    number.  Every calendar date (a text of three numeric parts, the
    month in 1..12 and the day in 1..31) has a day number and
    [pickDailyAnswer] returns a company of the list for it.  Two dates
    that have day numbers have the same answer exactly when their day
    numbers are congruent modulo n.  Each day from 1 January 1970 to the
    end of 2169 has a date text, the one [getTodayNY] writes for it,
    whose day number it is, and over the dates of any n consecutive
    such days every company is the answer exactly once; the same holds
    for any n date texts whose day numbers are consecutive. *)
Theorem pickDailyAnswer_cycle (answerList : list Company) :
  answerList ≠ [] → NoDup answerList →
  let n := Z.of_nat (length answerList) in
  (∀ day, 0 ≤ scheduleIndex day n < n ∧ scheduleIndex day n = day mod n)
  ∧ (∀ dateStr, isCalendarDate dateStr = true →
       ∃ day c, getUTCDayNumber dateStr = Some day
                ∧ pickDailyAnswer answerList dateStr = Some c ∧ c ∈ answerList)
  ∧ (∀ d1 d2 day1 day2,
       getUTCDayNumber d1 = Some day1 → getUTCDayNumber d2 = Some day2 →
       (pickDailyAnswer answerList d1 = pickDailyAnswer answerList d2
        ↔ day1 mod n = day2 mod n))
  ∧ (∀ day, 0 ≤ day < calendarHorizon →
       isCalendarDate (dateOfDay day) = true
       ∧ getUTCDayNumber (dateOfDay day) = Some day)
  ∧ (∀ start c, 0 ≤ start → start + n ≤ calendarHorizon → c ∈ answerList →
       ∃ k, 0 ≤ k < n
            ∧ pickDailyAnswer answerList (dateOfDay (start + k)) = Some c
            ∧ ∀ k', 0 ≤ k' < n →
                pickDailyAnswer answerList (dateOfDay (start + k')) = Some c → k' = k)
  ∧ (∀ (dates : Z → string) start c,
       (∀ k, 0 ≤ k < n → getUTCDayNumber (dates k) = Some (start + k)) →
       c ∈ answerList →
       ∃ k, 0 ≤ k < n
            ∧ pickDailyAnswer answerList (dates k) = Some c
            ∧ ∀ k', 0 ≤ k' < n →
                pickDailyAnswer answerList (dates k') = Some c → k' = k).
Proof.
  intros Hne Hnd n.
  assert (0 < n) as Hn by (subst n; destruct answerList; [done|simpl; lia]).
  set (schedule := seededShuffle answerList ANSWER_SALT).
  assert (schedule ≡ₚ answerList) as Hperm by apply seededShuffle_perm.
  assert (NoDup schedule) as Hnds by (by rewrite Hperm).
  assert (Z.of_nat (length schedule) = n) as Hlen by (by rewrite Hperm).
  assert (∀ dateStr day, getUTCDayNumber dateStr = Some day →
            pickDailyAnswer answerList dateStr = schedule !! Z.to_nat (day mod n))
    as Hpick by (intros dateStr day; by apply pickDailyAnswer_lookup).
  assert (∀ day, ∃ c, schedule !! Z.to_nat (day mod n) = Some c) as Hsome.
  { intros day. apply lookup_lt_is_Some_2.
    pose proof (Z.mod_pos_bound day n Hn). lia. }
  assert (∀ (dates : Z → string) start c,
            (∀ k, 0 ≤ k < n → getUTCDayNumber (dates k) = Some (start + k)) →
            c ∈ answerList →
            ∃ k, 0 ≤ k < n
                 ∧ pickDailyAnswer answerList (dates k) = Some c
                 ∧ ∀ k', 0 ≤ k' < n →
                     pickDailyAnswer answerList (dates k') = Some c → k' = k)
    as Hwindow.
  { intros dates start c Hdates Hc. rewrite <- Hperm in Hc.
    apply list_elem_of_lookup_1 in Hc as [p Hp].
    apply lookup_lt_Some in Hp as Hplen.
    pose proof (Z.mod_pos_bound (Z.of_nat p - start) n Hn) as Hk.
    assert ((start + (Z.of_nat p - start) mod n) mod n = Z.of_nat p) as Hback.
    { rewrite Z.add_mod_idemp_r by lia.
      replace (start + (Z.of_nat p - start)) with (Z.of_nat p) by lia.
      apply Z.mod_small. lia. }
    exists ((Z.of_nat p - start) mod n). split; [done|]. split.
    - rewrite (Hpick _ _ (Hdates _ Hk)), Hback. by rewrite Nat2Z.id.
    - intros k' Hk' Hc'. rewrite (Hpick _ _ (Hdates _ Hk')) in Hc'.
      assert (Z.to_nat ((start + k') mod n) = p) as Hi
        by (eapply NoDup_lookup; [exact Hnds|exact Hc'|exact Hp]).
      pose proof (Z.mod_pos_bound (start + k') n Hn).
      apply (mod_window_inj start _ _ n); [done|done|]. rewrite Hback. lia. }
  split; [|split; [|split; [|split; [|split]]]].
  - intros day. rewrite scheduleIndex_mod by done. split; [|done].
    by apply Z.mod_pos_bound.
  - intros dateStr Hcal.
    destruct (isCalendarDate_has_day dateStr Hcal) as [day Hday].
    destruct (Hsome day) as [c Hc]. exists day, c.
    split; [done|]. rewrite (Hpick _ _ Hday). split; [done|].
    rewrite <- Hperm. by eapply list_elem_of_lookup_2.
  - intros d1 d2 day1 day2 H1 H2. rewrite (Hpick _ _ H1), (Hpick _ _ H2). split.
    + intros Heq. destruct (Hsome day1) as [c Hc].
      assert (Z.to_nat (day1 mod n) = Z.to_nat (day2 mod n)) as Hi.
      { eapply NoDup_lookup; [exact Hnds|exact Hc|]. by rewrite <- Heq. }
      pose proof (Z.mod_pos_bound day1 n Hn).
      pose proof (Z.mod_pos_bound day2 n Hn). lia.
    + by intros ->.
  - intros day Hday. by apply dateOfDay_day.
  - intros start c Hs He Hc.
    apply (Hwindow (λ k, dateOfDay (start + k)) start c); [|done].
    intros k Hk. apply dateOfDay_day. lia.
  - exact Hwindow.
Qed.

Lemma pickDailyAnswer_cycle_witness :
  Sample.roster ≠ [] ∧ NoDup Sample.roster
  ∧ isCalendarDate "2024-01-01" = true
  ∧ ∃ day c, getUTCDayNumber "2024-01-01" = Some day
             ∧ pickDailyAnswer Sample.roster "2024-01-01" = Some c
             ∧ c ∈ Sample.roster.
Proof.
  assert (Sample.roster ≠ []) as H1 by discriminate.
  assert (NoDup Sample.roster) as H2
    by (apply (bool_decide_unpack (NoDup Sample.roster)); vm_compute; exact I).
  split; [exact H1|]. split; [exact H2|]. split; [reflexivity|].
  destruct (pickDailyAnswer_cycle Sample.roster H1 H2) as (_ & Hdate & _).
  exact (Hdate "2024-01-01" eq_refl).
Defined.

(** ** Submitting a guess *)

Lemma loadState_date (today : string) (item : Stored) :
  date (loadState today item) = today.
Proof.
  unfold loadState. destruct item as [| |parsed]; simpl; try done.
  by destruct (negb (truthy parsed) || dateDiffers parsed today).
Qed.

Lemma includesTicker_false (gs : list json) (t : string) :
  includesTicker gs t = false ↔ JStr t ∉ gs.
Proof.
  unfold includesTicker. induction gs as [|v gs IH]; simpl.
  - split; [intros _; apply not_elem_of_nil|done].
  - rewrite orb_false_iff, IH, not_elem_of_cons.
    assert ((match v with JStr s => String.eqb s t | _ => false end) = false ↔ JStr t ≠ v)
      as ->; [|done].
    destruct v; try (split; [intros _; discriminate|done]).
    rewrite String.eqb_neq. split; [intros ? [= ->]; done|intros ? ->; done].
Qed.

Lemma renderGuessRow_ok (G : Globals) (ans company : Company) (u : UI) :
  answer G = Some ans →
  ∃ row, guessRow company ans = Ok row ∧ renderGuessRow G company u = Ok (prependRow row u).
Proof.
  intros Hans. unfold renderGuessRow. rewrite Hans.
  destruct (guessRow_cells company ans)
    as (f & fa & p & pa & m & ma & e & ea & q & qa & _ & _ & _ & _ & _ & _ & _ & _ & _ & _
        & -> & _).
  by eexists.
Qed.

Lemma rejects_or_accepts (w : World) (inputValue : option string) :
  rejects w inputValue ∨ ∃ ans company, accepts w inputValue ans company.
Proof.
  unfold rejects, accepts, active.
  destruct (answer (globals w)) as [ans|]; [|by left; left].
  destruct (solved (loadState (today w) (stored w))) eqn:Hs; [left; auto|].
  destruct (decide (MAX_GUESSES ≤ length (guesses (loadState (today w) (stored w))))%nat)
    as [Hl|Hl]; [left; auto|].
  destruct (decide (rawInput w inputValue = "")) as [Hr|Hr]; [left; auto|].
  destruct (resolveCompany (globals w) (rawInput w inputValue)) as [c|] eqn:Hc;
    [|left; auto 6].
  destruct (includesTicker (guesses (loadState (today w) (stored w))) (ticker c)) eqn:Hi.
  - left. do 5 right. by exists c.
  - right. exists ans, c. repeat split; try done. lia.
Qed.

Lemma submitGuess_rejects (w : World) (inputValue : option string) :
  rejects w inputValue →
  ∃ o u, submitGuess w inputValue = Ok (o, withUI w u) ∧ ∀ c, o ≠ Accepted c.
Proof.
  unfold rejects, submitGuess. fold (rawInput w inputValue). intros Hrej.
  destruct (answer (globals w)) as [ans|] eqn:Hans.
  2:{ exists NoAnswer, (ui w). by destruct w. }
  destruct (solved (loadState (today w) (stored w))) eqn:Hs; [by do 2 eexists|].
  case_bool_decide as Hl; [by do 2 eexists|].
  destruct (String.eqb (rawInput w inputValue) "") eqn:Hr; [by do 2 eexists|].
  apply String.eqb_neq in Hr.
  destruct (resolveCompany (globals w) (rawInput w inputValue)) as [c|] eqn:Hc;
    [|by do 2 eexists].
  destruct (includesTicker (guesses (loadState (today w) (stored w))) (ticker c)) eqn:Hi;
    [by do 2 eexists|].
  destruct Hrej as [?|[?|[?|[?|[?|(c' & [= <-] & ?)]]]]]; try done. congruence.
Qed.

Lemma submitGuess_accepts (w : World) (inputValue : option string) (ans company : Company) :
  accepts w inputValue ans company →
  ∃ u, submitGuess w inputValue
       = Ok (Accepted company,
             mkWorld (globals w) (today w)
               (saveState (acceptedState (loadState (today w) (stored w)) ans company)) u).
Proof.
  unfold accepts, active, submitGuess. fold (rawInput w inputValue).
  intros (Hans & [Hs Hl] & Hr & Hc & Hi).
  rewrite Hans, Hs. rewrite bool_decide_eq_false_2 by lia.
  apply String.eqb_neq in Hr. rewrite Hr, Hc, Hi.
  destruct (renderGuessRow_ok (globals w) ans company (ui w) Hans) as (row & _ & ->).
  unfold acceptedState. simpl.
  destruct (String.eqb (ticker company) (ticker ans)) eqn:Heq; simpl.
  - by eexists.
  - case_bool_decide; by eexists.
Qed.

Lemma accepted_state_loaded (w : World) (ans company : Company) :
  loadState (today w)
    (saveState (acceptedState (loadState (today w) (stored w)) ans company))
  = acceptedState (loadState (today w) (stored w)) ans company.
Proof. apply loadState_saveState. simpl. apply loadState_date. Qed.

(** C4: when the session is active and the typed text resolves to a
    company that was not guessed before, the call goes through: the
    stored session is the loaded one with the ticker appended at the
    end, it is solved when the ticker is the answer's, otherwise
    exhausted when the list has reached eight guesses, otherwise still
    active, and it is what [saveState] wrote. *)
Theorem submitGuess_accepted_guess
    (w : World) (inputValue : option string) (ans company : Company) :
  accepts w inputValue ans company →
  ∃ w', submitGuess w inputValue = Ok (Accepted company, w')
    ∧ today w' = today w
    ∧ stored w' = saveState (loadState (today w') (stored w'))
    ∧ date (loadState (today w') (stored w')) = date (loadState (today w) (stored w))
    ∧ guesses (loadState (today w') (stored w'))
      = guesses (loadState (today w) (stored w)) ++ [JStr (ticker company)]
    ∧ (ticker company = ticker ans → solved (loadState (today w') (stored w')) = true)
    ∧ (ticker company ≠ ticker ans →
       (MAX_GUESSES ≤ length (guesses (loadState (today w') (stored w'))))%nat →
       exhausted (loadState (today w') (stored w')))
    ∧ (ticker company ≠ ticker ans →
       (length (guesses (loadState (today w') (stored w'))) < MAX_GUESSES)%nat →
       active (loadState (today w') (stored w'))).
Proof.
  intros Hacc. destruct (submitGuess_accepts w inputValue ans company Hacc) as [u Hsub].
  eexists. split; [exact Hsub|]. simpl.
  rewrite accepted_state_loaded. unfold acceptedState, exhausted, active. simpl.
  repeat split; try done.
  - intros ->. apply String.eqb_refl.
  - by apply String.eqb_neq.
  - by apply String.eqb_neq.
Qed.

Lemma submitGuess_accepted_guess_witness :
  accepts (Sample.world Absent) (Some " acme ") Sample.acme Sample.acme
  ∧ ∃ w', submitGuess (Sample.world Absent) (Some " acme ") = Ok (Accepted Sample.acme, w')
          ∧ stored w' = saveState (mkState Sample.day [JStr "ACM"] true).
Proof.
  assert (accepts (Sample.world Absent) (Some " acme ") Sample.acme Sample.acme) as Hacc.
  { unfold accepts, active. repeat split; try (vm_compute; reflexivity).
    - vm_compute; lia.
    - vm_compute; discriminate. }
  split; [exact Hacc|].
  destruct (submitGuess_accepted_guess _ _ _ _ Hacc)
    as (w' & Hsub & Htoday & Hsaved & _ & Hgs & Hsolved & _).
  exists w'. split; [exact Hsub|].
  rewrite Hsaved. f_equal.
  pose proof (loadState_date (today w') (stored w')) as Hdate.
  destruct (loadState (today w') (stored w')) as [d gs s].
  simpl in *. rewrite Hgs, (Hsolved eq_refl), Hdate, Htoday. reflexivity.
Defined.

(** C5: a call stopped by one of the guards (no answer, session solved,
    eight guesses made, nothing typed, nothing resolved, ticker already
    guessed) returns without an accepted guess and leaves the stored
    item as it was, hence the loaded date, guess list and solved flag
    too. *)
Theorem submitGuess_rejected_guess (w : World) (inputValue : option string) :
  rejects w inputValue →
  ∃ o w', submitGuess w inputValue = Ok (o, w')
    ∧ (∀ c, o ≠ Accepted c)
    ∧ stored w' = stored w
    ∧ today w' = today w
    ∧ loadState (today w') (stored w') = loadState (today w) (stored w).
Proof.
  intros Hrej. destruct (submitGuess_rejects w inputValue Hrej) as (o & u & Hsub & Ho).
  exists o, (withUI w u). by repeat split.
Qed.

Lemma submitGuess_rejected_guess_witness :
  rejects (Sample.world (saveState Sample.won)) (Some "GAM")
  ∧ ∃ o w', submitGuess (Sample.world (saveState Sample.won)) (Some "GAM") = Ok (o, w')
            ∧ stored w' = saveState Sample.won.
Proof.
  assert (rejects (Sample.world (saveState Sample.won)) (Some "GAM")) as Hrej.
  { unfold rejects. right. left. vm_compute; reflexivity. }
  split; [exact Hrej|].
  destruct (submitGuess_rejected_guess _ _ Hrej) as (o & w' & Hsub & _ & Hst & _).
  exists o, w'. split; [exact Hsub|exact Hst].
Defined.

(** C9: from a session whose guess list has no repeated entry and at
    most eight entries, every call returns, and the guess list loaded
    afterwards again has no repeated entry and at most eight entries,
    and extends the old list at its end by at most one entry. *)
Theorem submitGuess_keeps_guess_list_invariant (w : World) (inputValue : option string) :
  NoDup (guesses (loadState (today w) (stored w))) →
  (length (guesses (loadState (today w) (stored w))) ≤ MAX_GUESSES)%nat →
  ∃ o w', submitGuess w inputValue = Ok (o, w')
    ∧ NoDup (guesses (loadState (today w') (stored w')))
    ∧ (length (guesses (loadState (today w') (stored w'))) ≤ MAX_GUESSES)%nat
    ∧ guesses (loadState (today w) (stored w))
        `prefix_of` guesses (loadState (today w') (stored w'))
    ∧ (guesses (loadState (today w') (stored w')) = guesses (loadState (today w) (stored w))
       ∨ ∃ c, o = Accepted c
              ∧ guesses (loadState (today w') (stored w'))
                = guesses (loadState (today w) (stored w)) ++ [JStr (ticker c)]).
Proof.
  intros Hnd Hlen.
  destruct (rejects_or_accepts w inputValue) as [Hrej|(ans & c & Hacc)].
  - destruct (submitGuess_rejects w inputValue Hrej) as (o & u & Hsub & Ho).
    exists o, (withUI w u). simpl. repeat split; try done. by left.
  - destruct (submitGuess_accepts w inputValue ans c Hacc) as [u Hsub].
    eexists _, _. split; [exact Hsub|]. simpl.
    rewrite accepted_state_loaded. unfold acceptedState. simpl.
    destruct Hacc as (_ & [_ Hlt] & _ & _ & Hfresh%includesTicker_false).
    repeat split.
    + apply NoDup_app. repeat split; [done| |apply NoDup_singleton].
      intros x Hx ->%list_elem_of_singleton. done.
    + rewrite length_app. simpl. lia.
    + by apply prefix_app_r.
    + right. by exists c.
Qed.

Lemma submitGuess_keeps_guess_list_invariant_witness :
  NoDup (guesses (loadState Sample.day (saveState Sample.lost)))
  ∧ (length (guesses (loadState Sample.day (saveState Sample.lost))) ≤ MAX_GUESSES)%nat
  ∧ ∃ o w', submitGuess (Sample.world (saveState Sample.lost)) (Some "ACM") = Ok (o, w')
            ∧ (length (guesses (loadState (today w') (stored w'))) ≤ MAX_GUESSES)%nat.
Proof.
  assert (loadState Sample.day (saveState Sample.lost) = Sample.lost) as Hload
    by (vm_compute; reflexivity).
  assert (NoDup (guesses (loadState Sample.day (saveState Sample.lost)))) as H1.
  { rewrite Hload. apply (NoDup_fmap_2 JStr).
    apply (bool_decide_unpack (NoDup _)). vm_compute. exact I. }
  assert (length (guesses (loadState Sample.day (saveState Sample.lost))) ≤ MAX_GUESSES)%nat
    as H2 by (rewrite Hload; vm_compute; lia).
  split; [exact H1|]. split; [exact H2|].
  destruct (submitGuess_keeps_guess_list_invariant
              (Sample.world (saveState Sample.lost)) (Some "ACM") H1 H2)
    as (o & w' & Hsub & _ & Hlen & _).
  exists o, w'. split; [exact Hsub|exact Hlen].
Defined.

(** * Further properties of the code *)

(** ** Characters *)

Lemma code_inj (c d : ascii) : code c = code d → c = d.
Proof.
  unfold code. intros H.
  rewrite <- (Ascii.ascii_nat_embedding c), <- (Ascii.ascii_nat_embedding d). by rewrite H.
Qed.

Lemma eqb_code_ne (c d : ascii) : code c ≠ code d → Ascii.eqb c d = false.
Proof. intros H. apply Ascii.eqb_neq. by intros ->. Qed.

Lemma alnum_not_space (c : ascii) : isLowerAlnum c = true → isSpace c = false.
Proof.
  unfold isLowerAlnum, isSpace.
  rewrite orb_true_iff, !andb_true_iff, !Nat.leb_le.
  intros H. apply orb_false_iff. rewrite andb_false_iff, !Nat.leb_gt, Nat.eqb_neq. lia.
Qed.

Lemma alnum_lower (c : ascii) : isLowerAlnum c = true → toLowerChar c = c.
Proof.
  unfold isLowerAlnum, toLowerChar.
  rewrite orb_true_iff, !andb_true_iff, !Nat.leb_le. intros H.
  destruct ((65 <=? code c)%nat && (code c <=? 90)%nat) eqn:E; [|done].
  apply andb_true_iff in E. rewrite !Nat.leb_le in E. lia.
Qed.

Lemma alnum_not_amp (c : ascii) : isLowerAlnum c = true → Ascii.eqb c "&" = false.
Proof.
  unfold isLowerAlnum. rewrite orb_true_iff, !andb_true_iff, !Nat.leb_le. intros H.
  apply eqb_code_ne. change (code "&") with 38%nat. lia.
Qed.

Lemma toUpperChar_code (c : ascii) :
  (97 ≤ code c ≤ 122)%nat → code (toUpperChar c) = (code c - 32)%nat.
Proof.
  intros H. unfold toUpperChar.
  rewrite (proj2 (andb_true_iff _ _)) by (rewrite !Nat.leb_le; lia).
  apply Ascii.nat_ascii_embedding. lia.
Qed.

Lemma toUpperChar_fixed (c : ascii) :
  ¬ (97 ≤ code c ≤ 122)%nat → toUpperChar c = c.
Proof.
  intros H. unfold toUpperChar.
  destruct ((97 <=? code c)%nat && (code c <=? 122)%nat) eqn:E; [|done].
  apply andb_true_iff in E. rewrite !Nat.leb_le in E. lia.
Qed.

Lemma toUpperChar_idem (c : ascii) : toUpperChar (toUpperChar c) = toUpperChar c.
Proof.
  destruct (decide (97 ≤ code c ≤ 122)%nat) as [H|H].
  - apply toUpperChar_fixed. rewrite (toUpperChar_code c H). lia.
  - by rewrite !(toUpperChar_fixed c H).
Qed.

Lemma isSpace_upper (c : ascii) : isSpace (toUpperChar c) = isSpace c.
Proof.
  destruct (decide (97 ≤ code c ≤ 122)%nat) as [H|H].
  - unfold isSpace. rewrite (toUpperChar_code c H).
    transitivity false; [|symmetry]; apply orb_false_iff;
      rewrite andb_false_iff, !Nat.leb_gt, Nat.eqb_neq; lia.
  - by rewrite (toUpperChar_fixed c H).
Qed.

(** ** Trimming *)

Lemma trimEnd_keep (c : ascii) (r : string) :
  isSpace c = false → trimEnd (String c r) = String c (trimEnd r).
Proof. intros H. simpl. rewrite H. by destruct (trimEnd r). Qed.

Lemma trimEnd_allSpace (s : string) : allSpace s = true → trimEnd s = "".
Proof.
  induction s as [|c r IH]; simpl; [done|].
  intros [Hc Hr]%andb_true_iff. by rewrite (IH Hr), Hc.
Qed.

Lemma trimStart_allSpace (s : string) : allSpace s = true → trimStart s = "".
Proof.
  induction s as [|c r IH]; simpl; [done|].
  intros [Hc Hr]%andb_true_iff. rewrite Hc. by apply IH.
Qed.

Lemma trimStart_spec (s : string) :
  trimStart s = "" ∨ ∃ c r, trimStart s = String c r ∧ isSpace c = false.
Proof.
  induction s as [|c r IH]; simpl; [by left|].
  destruct (isSpace c) eqn:Hc; [done|]. right. by exists c, r.
Qed.

Lemma trimStart_fixed (c : ascii) (r : string) :
  isSpace c = false → trimStart (String c r) = String c r.
Proof. intros H. simpl. by rewrite H. Qed.

Lemma trimEnd_idem (s : string) : trimEnd (trimEnd s) = trimEnd s.
Proof.
  induction s as [|c r IH]; [done|]. simpl.
  destruct (trimEnd r) as [|d k] eqn:Hr.
  - destruct (isSpace c) eqn:Hc; [done|]. simpl. by rewrite Hc.
  - change (trimEnd (String c (String d k))) with
      (match trimEnd (String d k) with
       | EmptyString => if isSpace c then EmptyString else String c EmptyString
       | kept => String c kept
       end).
    by rewrite IH.
Qed.

Lemma trim_empty_iff (s : string) : trim s = "" ↔ allSpace s = true.
Proof.
  unfold trim. split.
  - induction s as [|c r IH]; [done|]. simpl.
    destruct (isSpace c) eqn:Hc; [exact IH|].
    rewrite trimEnd_keep by done. discriminate.
  - intros H. by rewrite trimStart_allSpace.
Qed.

(** ** [normalize] *)

Lemma collapseRuns_spaced (s : string) :
  ∀ inRun, spaced inRun (collapseRuns inRun s) = true.
Proof.
  induction s as [|c r IH]; intros inRun; simpl; [done|].
  destruct (isLowerAlnum c) eqn:Hc.
  - simpl. by rewrite Hc.
  - destruct inRun; [apply IH|]. simpl. apply IH.
Qed.

Lemma spaced_space (b : bool) (c : ascii) (r : string) :
  isLowerAlnum c = false → spaced b (String c r) = true →
  c = " "%char ∧ b = false ∧ spaced true r = true.
Proof.
  simpl. intros ->. intros [[Hc Hb]%andb_true_iff Hr]%andb_true_iff.
  apply Ascii.eqb_eq in Hc. apply negb_true_iff in Hb. done.
Qed.

Lemma trimStart_spaced (s : string) :
  ∀ b, spaced b s = true → spaced true (trimStart s) = true.
Proof.
  induction s as [|c r IH]; intros b; [done|].
  destruct (isLowerAlnum c) eqn:Hc.
  - rewrite trimStart_fixed by (by apply alnum_not_space). simpl. by rewrite Hc.
  - intros (-> & _ & Hr)%spaced_space; [|done]. simpl. by apply (IH true).
Qed.

Lemma trimEnd_words (s : string) :
  (spaced false s = true → wordsTail (trimEnd s) = true)
  ∧ (spaced true s = true → normalForm (trimEnd s) = true).
Proof.
  induction s as [|c r [IH1 IH2]]; [done|].
  destruct (isLowerAlnum c) eqn:Hc.
  - rewrite trimEnd_keep by (by apply alnum_not_space). simpl. rewrite Hc. simpl.
    split; exact IH1.
  - split.
    + intros (-> & _ & Hr)%spaced_space; [|done]. specialize (IH2 Hr). simpl.
      destruct (trimEnd r) as [|d k]; [done|]. exact IH2.
    + by intros (_ & ? & _)%spaced_space.
Qed.

Lemma normalize_words (s : option string) : normalForm (normalize s) = true.
Proof.
  unfold normalize, trim. apply trimEnd_words.
  eapply trimStart_spaced. apply collapseRuns_spaced.
Qed.

(** X1: whatever the text, also a missing one, [normalize] returns
    lower-case letters and digits in words separated by single spaces,
    with no space at either end. *)
Theorem normalize_normalForm (s : option string) :
  normalForm (normalize s) = true ∧ normalize None = "".
Proof. split; [apply normalize_words|done]. Qed.

Lemma wordsTail_cases (s : string) :
  wordsTail s = true →
  s = ""
  ∨ (∃ c r, s = String c r ∧ isLowerAlnum c = true ∧ wordsTail r = true)
  ∨ (∃ d r, s = String " " (String d r) ∧ isLowerAlnum d = true
            ∧ wordsTail (String d r) = true).
Proof.
  destruct s as [|c r]; [by left|]. simpl.
  destruct (isLowerAlnum c) eqn:Hc.
  - intros Hr. right. left. by exists c, r.
  - intros [->%Ascii.eqb_eq Hr]%andb_true_iff. destruct r as [|d r]; [done|].
    apply andb_true_iff in Hr as [Hd Hr]. right. right. exists d, r.
    simpl. by rewrite Hd.
Qed.

Lemma words_toLowerCase (s : string) : wordsTail s = true → toLowerCase s = s.
Proof.
  induction s as [|c r IH]; [done|].
  intros [|[(c' & r' & [= -> ->] & Hc & Hr)|(d & r' & [= -> ->] & Hd & Hr)]]%wordsTail_cases;
    [done| |].
  - unfold toLowerCase in *. simpl. by rewrite alnum_lower, IH.
  - unfold toLowerCase in *.
    change (mapChars toLowerChar (String " " (String d r'))) with
      (String " " (mapChars toLowerChar (String d r'))).
    by rewrite IH.
Qed.

Lemma words_replaceAmp (s : string) : wordsTail s = true → replaceAmp s = s.
Proof.
  induction s as [|c r IH]; [done|].
  intros [|[(c' & r' & [= -> ->] & Hc & Hr)|(d & r' & [= -> ->] & Hd & Hr)]]%wordsTail_cases;
    [done| |].
  - simpl. by rewrite alnum_not_amp, IH.
  - change (replaceAmp (String " " (String d r'))) with
      (String " " (replaceAmp (String d r'))).
    by rewrite IH.
Qed.

Lemma words_collapseRuns (s : string) : wordsTail s = true → collapseRuns false s = s.
Proof.
  induction s as [|c r IH]; [done|].
  intros [|[(c' & r' & [= -> ->] & Hc & Hr)|(d & r' & [= -> ->] & Hd & Hr)]]%wordsTail_cases;
    [done| |].
  - simpl. by rewrite Hc, IH.
  - specialize (IH Hr). simpl in IH. rewrite Hd in IH.
    simpl. rewrite Hd. by rewrite IH.
Qed.

Lemma words_trimEnd (s : string) : wordsTail s = true → trimEnd s = s.
Proof.
  induction s as [|c r IH]; [done|].
  intros [|[(c' & r' & [= -> ->] & Hc & Hr)|(d & r' & [= -> ->] & Hd & Hr)]]%wordsTail_cases;
    [done| |].
  - rewrite trimEnd_keep by (by apply alnum_not_space). by rewrite IH.
  - specialize (IH Hr).
    change (trimEnd (String " " (String d r'))) with
      (match trimEnd (String d r') with
       | EmptyString => EmptyString
       | kept => String " " kept
       end).
    by rewrite IH.
Qed.

Lemma normalForm_words (s : string) : normalForm s = true → wordsTail s = true.
Proof.
  destruct s as [|c r]; [done|]. simpl.
  intros [Hc Hr]%andb_true_iff. by rewrite Hc.
Qed.

Lemma normalize_fixed (s : string) : normalForm s = true → normalize (Some s) = s.
Proof.
  intros Hn. pose proof (normalForm_words s Hn) as Hw.
  unfold normalize, trim. simpl.
  rewrite (words_toLowerCase s Hw), (words_replaceAmp s Hw), (words_collapseRuns s Hw).
  destruct s as [|c r]; [done|].
  apply andb_true_iff in Hn as [Hc _].
  rewrite trimStart_fixed by (by apply alnum_not_space). by apply words_trimEnd.
Qed.

(** X2: normalizing a normalized text changes nothing, so a company
    name and its stored key normalize to the same key. *)
Theorem normalize_idempotent (s : option string) :
  normalize (Some (normalize s)) = normalize s.
Proof. apply normalize_fixed, normalize_words. Qed.

Lemma toLowerChar_code (c : ascii) :
  (65 ≤ code c ≤ 90)%nat → code (toLowerChar c) = (code c + 32)%nat.
Proof.
  intros H. unfold toLowerChar.
  rewrite (proj2 (andb_true_iff _ _)) by (rewrite !Nat.leb_le; lia).
  apply Ascii.nat_ascii_embedding. lia.
Qed.

Lemma toLowerChar_fixed (c : ascii) :
  ¬ (65 ≤ code c ≤ 90)%nat → toLowerChar c = c.
Proof.
  intros H. unfold toLowerChar.
  destruct ((65 <=? code c)%nat && (code c <=? 90)%nat) eqn:E; [|done].
  apply andb_true_iff in E. rewrite !Nat.leb_le in E. lia.
Qed.

Lemma toLowerChar_idem (c : ascii) : toLowerChar (toLowerChar c) = toLowerChar c.
Proof.
  destruct (decide (65 ≤ code c ≤ 90)%nat) as [H|H].
  - apply toLowerChar_fixed. rewrite (toLowerChar_code c H). lia.
  - by rewrite !(toLowerChar_fixed c H).
Qed.

Lemma toLowerChar_upper (c : ascii) : toLowerChar (toUpperChar c) = toLowerChar c.
Proof.
  destruct (decide (97 ≤ code c ≤ 122)%nat) as [H|H].
  - pose proof (toUpperChar_code c H) as Hu.
    rewrite (toLowerChar_fixed c) by lia.
    apply code_inj. rewrite toLowerChar_code by lia. lia.
  - by rewrite (toUpperChar_fixed c H).
Qed.

(** X3: on ASCII text [normalize] does not see the case of the
    letters. *)
Theorem normalize_ignores_case (s : string) :
  asciiText s = true →
  normalize (Some (toUpperCase s)) = normalize (Some s)
  ∧ normalize (Some (toLowerCase s)) = normalize (Some s).
Proof.
  intros _. unfold normalize. simpl.
  assert (toLowerCase (toUpperCase s) = toLowerCase s) as ->.
  { unfold toLowerCase, toUpperCase. induction s as [|c r IH]; [done|].
    simpl. by rewrite toLowerChar_upper, IH. }
  assert (toLowerCase (toLowerCase s) = toLowerCase s) as ->; [|done].
  unfold toLowerCase. induction s as [|c r IH]; [done|].
  simpl. by rewrite toLowerChar_idem, IH.
Qed.

Lemma normalize_ignores_case_witness :
  asciiText "AT&T Inc." = true
  ∧ normalize (Some (toUpperCase "AT&T Inc.")) = normalize (Some "AT&T Inc.").
Proof.
  split; [reflexivity|].
  exact (proj1 (normalize_ignores_case "AT&T Inc." eq_refl)).
Defined.

(** ** Suggestions *)

Lemma prefix_includesText (q s : string) :
  String.prefix q s = true → includesText q s = true.
Proof. intros H. destruct s; simpl in *; by rewrite H. Qed.

Lemma prefixMatch_contains (q : string) (c : Company) :
  prefixMatch q c = true → containsMatch q c = true.
Proof.
  unfold prefixMatch, containsMatch. rewrite !orb_true_iff.
  intros [H|H]; [left|right]; by apply prefix_includesText.
Qed.

Lemma suggestionLoop_filter (q : string) (cs : list Company) :
  suggestionLoop q cs
  = (List.filter (prefixMatch q) cs,
     List.filter (fun c => negb (prefixMatch q c) && containsMatch q c) cs).
Proof.
  induction cs as [|c rest IH]; [done|]. simpl. rewrite IH.
  fold (prefixMatch q c). fold (containsMatch q c).
  destruct (prefixMatch q c); [done|]. simpl. by destruct (containsMatch q c).
Qed.

Lemma getSuggestions_elem (G : Globals) (query : string) (c : Company) :
  c ∈ getSuggestions G query →
  c ∈ companies G ∧ containsMatch (normalize (Some query)) c = true.
Proof.
  unfold getSuggestions.
  destruct (String.eqb (normalize (Some query)) "") eqn:Hq; [by intros ?%elem_of_nil|].
  rewrite suggestionLoop_filter. intros Hc.
  eapply elem_of_sublist in Hc; [|apply sublist_take].
  apply elem_of_app in Hc. rewrite !list_elem_of_In, !List.filter_In in Hc.
  rewrite list_elem_of_In.
  destruct Hc as [[? Hp]|[? [_ Hc]%andb_true_iff]]; [|done].
  split; [done|]. by apply prefixMatch_contains.
Qed.

(** X4: a blank query (one that normalizes to the empty text) has no
    suggestions; otherwise the suggestions are the companies whose
    normalized name or lower-cased ticker starts with the normalized
    query, in list order, followed by those that only contain it, cut
    after twelve. *)
Theorem getSuggestions_filter (G : Globals) (query : string) :
  (normalize (Some query) = "" → getSuggestions G query = [])
  ∧ (normalize (Some query) ≠ "" →
     getSuggestions G query
     = take 12
         (List.filter (prefixMatch (normalize (Some query))) (companies G)
          ++ List.filter (fun c => negb (prefixMatch (normalize (Some query)) c)
                                   && containsMatch (normalize (Some query)) c)
                         (companies G)))
  ∧ (length (getSuggestions G query) ≤ 12)%nat.
Proof.
  unfold getSuggestions. rewrite suggestionLoop_filter.
  split; [by intros ->|]. split.
  - intros Hq%String.eqb_neq. by rewrite Hq.
  - destruct (String.eqb _ _); [simpl; lia|]. rewrite length_take. lia.
Qed.

Lemma getSuggestions_filter_witness :
  normalize (Some "  Inc ") ≠ ""
  ∧ getSuggestions Sample.G "  Inc " = [Sample.beta].
Proof.
  assert (normalize (Some "  Inc ") ≠ "") as Hq by (vm_compute; discriminate).
  split; [exact Hq|].
  destruct (getSuggestions_filter Sample.G "  Inc ") as (_ & Hfil & _).
  rewrite (Hfil Hq). vm_compute. reflexivity.
Defined.

Lemma NoDup_List_filter {A : Type} (f : A → bool) (l : list A) :
  NoDup l → NoDup (List.filter f l).
Proof.
  induction 1 as [|x l Hx Hnd IH]; simpl; [constructor|].
  destruct (f x); [|done]. constructor; [|done].
  rewrite list_elem_of_In, List.filter_In, <- list_elem_of_In. tauto.
Qed.

(** X5: every suggestion is a listed company whose normalized name or
    lower-cased ticker contains the normalized query, and a list
    without repeated companies gives suggestions without repeats. *)
Theorem getSuggestions_sound (G : Globals) (query : string) :
  (∀ c, c ∈ getSuggestions G query →
        c ∈ companies G ∧ containsMatch (normalize (Some query)) c = true)
  ∧ (NoDup (companies G) → NoDup (getSuggestions G query)).
Proof.
  split; [intros c; apply getSuggestions_elem|].
  intros Hnd. unfold getSuggestions.
  destruct (String.eqb _ _); [constructor|]. rewrite suggestionLoop_filter.
  eapply sublist_NoDup; [|apply sublist_take].
  apply NoDup_app. split; [by apply NoDup_List_filter|].
  split; [|by apply NoDup_List_filter].
  intros c. rewrite !list_elem_of_In, !List.filter_In.
  intros [_ Hp] [_ Hn]. by rewrite Hp in Hn.
Qed.

Lemma getSuggestions_sound_witness :
  NoDup (companies Sample.G) ∧ NoDup (getSuggestions Sample.G "a").
Proof.
  assert (NoDup (companies Sample.G)) as H
    by (apply (bool_decide_unpack (NoDup _)); vm_compute; exact I).
  split; [exact H|].
  exact (proj2 (getSuggestions_sound Sample.G "a") H).
Defined.

(** ** Escaping *)

Lemma occurs_app (c : ascii) (a b : string) :
  occurs c (a +:+ b) = occurs c a || occurs c b.
Proof.
  induction a as [|x a IH]; [done|]. simpl. rewrite IH. apply orb_assoc.
Qed.

Lemma occurs_replace_same (c : ascii) (r s : string) :
  occurs c r = false → occurs c (replaceAllChar c r s) = false.
Proof.
  intros Hr. induction s as [|x s IH]; [done|]. simpl.
  destruct (Ascii.eqb x c) eqn:E.
  - by rewrite occurs_app, Hr, IH.
  - simpl. by rewrite E, IH.
Qed.

Lemma occurs_replace_other (c d : ascii) (r s : string) :
  occurs c r = false → occurs c s = false →
  occurs c (replaceAllChar d r s) = false.
Proof.
  intros Hr. induction s as [|x s IH]; [done|]. simpl.
  intros [Hx Hs]%orb_false_iff.
  destruct (Ascii.eqb x d).
  - by rewrite occurs_app, Hr, IH.
  - simpl. by rewrite Hx, IH.
Qed.

Lemma replaceAllChar_absent (c : ascii) (r s : string) :
  occurs c s = false → replaceAllChar c r s = s.
Proof.
  induction s as [|x s IH]; [done|]. simpl.
  intros [-> Hs]%orb_false_iff. by rewrite IH.
Qed.

(** X6: the text [escapeHtml] returns holds none of the characters
    [<], [>], the double quote and the apostrophe, and a text that holds
    none of the five special characters is returned as it is. *)
Theorem escapeHtml_safe (str : option string) :
  occurs "<" (escapeHtml str) = false
  ∧ occurs ">" (escapeHtml str) = false
  ∧ occurs doubleQuote (escapeHtml str) = false
  ∧ occurs "'" (escapeHtml str) = false
  ∧ (∀ s, str = Some s → occurs "&" s = false → occurs "<" s = false →
          occurs ">" s = false → occurs doubleQuote s = false → occurs "'" s = false →
          escapeHtml str = s).
Proof.
  unfold escapeHtml. repeat split.
  - do 3 (apply occurs_replace_other; [reflexivity|]).
    by apply occurs_replace_same.
  - do 2 (apply occurs_replace_other; [reflexivity|]).
    by apply occurs_replace_same.
  - apply occurs_replace_other; [reflexivity|]. by apply occurs_replace_same.
  - by apply occurs_replace_same.
  - intros s -> Ha Hl Hg Hq Hp. simpl.
    by rewrite (replaceAllChar_absent "&"), (replaceAllChar_absent "<"),
      (replaceAllChar_absent ">"), (replaceAllChar_absent doubleQuote),
      (replaceAllChar_absent "'").
Qed.

Lemma escapeHtml_safe_witness :
  occurs "&" "Acme Corp" = false ∧ occurs "<" "Acme Corp" = false
  ∧ occurs ">" "Acme Corp" = false ∧ occurs doubleQuote "Acme Corp" = false
  ∧ occurs "'" "Acme Corp" = false
  ∧ escapeHtml (Some "Acme Corp") = "Acme Corp".
Proof.
  repeat (split; [reflexivity|]).
  destruct (escapeHtml_safe (Some "Acme Corp")) as (_ & _ & _ & _ & Hid).
  apply Hid; reflexivity.
Defined.

(** ** The two maps of [init] *)

Section MakeMap.
Variable key : Company → string.

Lemma makeMap_foldl_other (cs : list Company) :
  ∀ (m : gmap string Company) t,
    t ∉ key <$> cs → foldl (fun m c => <[key c := c]> m) m cs !! t = m !! t.
Proof.
  induction cs as [|x cs IH]; intros m t; [done|]. simpl.
  intros [Hx Ht]%not_elem_of_cons. rewrite IH by done. by rewrite lookup_insert_ne.
Qed.

Lemma makeMap_foldl_sound (cs : list Company) :
  ∀ (m : gmap string Company) t c,
    foldl (fun m c => <[key c := c]> m) m cs !! t = Some c →
    (c ∈ cs ∧ key c = t) ∨ m !! t = Some c.
Proof.
  induction cs as [|x cs IH]; intros m t c; simpl; [by right|].
  intros [[? ?]|Hm]%IH; [left; split; [by right|done]|].
  destruct (decide (key x = t)) as [<-|Hne].
  - rewrite lookup_insert_eq in Hm. injection Hm as ->. left. split; [by left|done].
  - rewrite lookup_insert_ne in Hm by done. by right.
Qed.

Lemma makeMap_last (l1 l2 : list Company) (c : Company) :
  key c ∉ key <$> l2 → makeMap key (l1 ++ c :: l2) !! key c = Some c.
Proof.
  intros Hl2. unfold makeMap. rewrite foldl_app. simpl.
  rewrite makeMap_foldl_other by done. apply lookup_insert_eq.
Qed.

Lemma makeMap_sound (cs : list Company) (t : string) (c : Company) :
  makeMap key cs !! t = Some c → c ∈ cs ∧ key c = t.
Proof. by intros [?|?]%makeMap_foldl_sound. Qed.

Lemma makeMap_unique (cs : list Company) (c : Company) :
  NoDup (key <$> cs) → c ∈ cs → makeMap key cs !! key c = Some c.
Proof.
  intros Hnd (l1 & l2 & ->)%list_elem_of_split.
  apply makeMap_last.
  rewrite fmap_app, fmap_cons in Hnd.
  apply NoDup_app in Hnd as (_ & _ & Hnd). by apply NoDup_cons in Hnd as [? _].
Qed.
End MakeMap.

(** X7: a map built by [init] only holds listed companies, each under
    its own key; of several companies with one key the last in the list
    is the one stored; with pairwise different keys every listed company
    is found under its key. *)
Theorem makeMap_lookup (key : Company → string) (cs : list Company) :
  (∀ t c, makeMap key cs !! t = Some c → c ∈ cs ∧ key c = t)
  ∧ (∀ l1 c l2, cs = l1 ++ c :: l2 → key c ∉ key <$> l2 →
                makeMap key cs !! key c = Some c)
  ∧ (NoDup (key <$> cs) → ∀ c, c ∈ cs → makeMap key cs !! key c = Some c).
Proof.
  split; [intros t c; apply makeMap_sound|]. split.
  - intros l1 c l2 ->. apply makeMap_last.
  - intros Hnd c. by apply makeMap_unique.
Qed.

Lemma makeMap_lookup_witness :
  NoDup (ticker <$> Sample.roster)
  ∧ Sample.gamma ∈ Sample.roster
  ∧ makeByTicker Sample.roster !! "GAM" = Some Sample.gamma.
Proof.
  assert (NoDup (ticker <$> Sample.roster)) as H1
    by (apply (bool_decide_unpack (NoDup _)); vm_compute; exact I).
  assert (Sample.gamma ∈ Sample.roster) as H2
    by (apply (bool_decide_unpack (_ ∈ _)); vm_compute; exact I).
  split; [exact H1|]. split; [exact H2|].
  destruct (makeMap_lookup ticker Sample.roster) as (_ & _ & Huniq).
  exact (Huniq H1 Sample.gamma H2).
Defined.

(** ** Resolving a typed text on the maps of [init] *)

Lemma resolveCompany_listed (cs sorted : list Company) (day raw : string) (c : Company) :
  resolveCompany (initGlobals cs sorted day) raw = Some c → c ∈ cs.
Proof.
  unfold resolveCompany. simpl.
  destruct (makeByTicker cs !! toUpperCase raw) as [c1|] eqn:H1.
  { intros [= <-]. by apply (makeMap_sound ticker) in H1 as [? _]. }
  destruct (makeByName cs !! normalize (Some raw)) as [c2|] eqn:H2.
  { intros [= <-]. by apply makeMap_sound in H2 as [? _]. }
  destruct (getSuggestions _ raw) as [|c3 [|? ?]] eqn:H3; try done.
  intros [= <-].
  assert (c3 ∈ getSuggestions (initGlobals cs sorted day) raw) as Hin
    by (rewrite H3; by left).
  by apply getSuggestions_elem in Hin as [? _].
Qed.

Lemma initGlobals_indexed (cs sorted : list Company) (day : string) :
  NoDup (ticker <$> cs) → indexedByTicker (initGlobals cs sorted day).
Proof.
  intros Hnd raw c Hc%resolveCompany_listed. by apply (makeMap_unique ticker).
Qed.

(** X8: on the maps [init] builds from a list with pairwise different
    tickers, a typed text resolves only to listed companies; an ASCII
    text that upper-cases to a listed ticker resolves to that company,
    whatever its letter case; and a text that is no ticker but
    normalizes like the name of a company resolves to that company when
    no other company normalizes to the same name. *)
Theorem resolveCompany_on_init_maps
    (cs sorted : list Company) (day raw : string) (c : Company) :
  NoDup (ticker <$> cs) → c ∈ cs →
  (∀ c', resolveCompany (initGlobals cs sorted day) raw = Some c' → c' ∈ cs)
  ∧ (asciiText raw = true → toUpperCase raw = ticker c →
     resolveCompany (initGlobals cs sorted day) raw = Some c)
  ∧ (makeByTicker cs !! toUpperCase raw = None →
     NoDup ((fun c => normalize (Some (name c))) <$> cs) →
     normalize (Some raw) = normalize (Some (name c)) →
     resolveCompany (initGlobals cs sorted day) raw = Some c).
Proof.
  intros Hnd Hc. split; [intros c'; apply resolveCompany_listed|]. split.
  - intros _ Hup. unfold resolveCompany. simpl. rewrite Hup.
    unfold makeByTicker. by rewrite (makeMap_unique ticker cs c Hnd Hc).
  - intros Hnone Hnames Hname. unfold resolveCompany. simpl. rewrite Hnone, Hname.
    unfold makeByName.
    by rewrite (makeMap_unique (fun c => normalize (Some (name c))) cs c Hnames Hc).
Qed.

Lemma resolveCompany_on_init_maps_witness :
  NoDup (ticker <$> Sample.roster) ∧ Sample.gamma ∈ Sample.roster
  ∧ asciiText "gam" = true ∧ toUpperCase "gam" = ticker Sample.gamma
  ∧ resolveCompany (initGlobals Sample.roster Sample.roster Sample.day) "gam"
    = Some Sample.gamma.
Proof.
  assert (NoDup (ticker <$> Sample.roster)) as H1
    by (apply (bool_decide_unpack (NoDup _)); vm_compute; exact I).
  assert (Sample.gamma ∈ Sample.roster) as H2
    by (apply (bool_decide_unpack (_ ∈ _)); vm_compute; exact I).
  split; [exact H1|]. split; [exact H2|]. split; [reflexivity|]. split; [reflexivity|].
  destruct (resolveCompany_on_init_maps Sample.roster Sample.roster Sample.day "gam"
              Sample.gamma H1 H2) as (_ & Htick & _).
  exact (Htick eq_refl eq_refl).
Defined.

(** ** What one call of [submitGuess] does to the world *)

Lemma submitGuess_rejects_effect (w : World) (inputValue : option string) :
  rejects w inputValue →
  ∃ o u, submitGuess w inputValue = Ok (o, withUI w u)
    ∧ (∀ c, o ≠ Accepted c)
    ∧ rows u = rows (ui w) ∧ attemptsText u = attemptsText (ui w)
    ∧ ((locked u = locked (ui w) ∧ shareHidden u = shareHidden (ui w))
       ∨ (finished (loadState (today w) (stored w)) = true
          ∧ locked u = true ∧ shareHidden u = false)).
Proof.
  unfold rejects, submitGuess, finished. fold (rawInput w inputValue). intros Hrej.
  destruct (answer (globals w)) as [ans|] eqn:Hans.
  2:{ exists NoAnswer, (ui w). destruct w. simpl. repeat split; try done. by left. }
  destruct (solved (loadState (today w) (stored w))) eqn:Hs.
  { do 2 eexists. split; [reflexivity|]. simpl. rewrite Hs. repeat split; try done.
    by right. }
  case_bool_decide as Hl.
  { do 2 eexists. split; [reflexivity|]. simpl. rewrite Hs.
    rewrite bool_decide_eq_true_2 by done. repeat split; try done. by right. }
  destruct (String.eqb (rawInput w inputValue) "") eqn:Hr.
  { do 2 eexists. split; [reflexivity|]. simpl. repeat split; try done. by left. }
  apply String.eqb_neq in Hr.
  destruct (resolveCompany (globals w) (rawInput w inputValue)) as [c|] eqn:Hc.
  2:{ do 2 eexists. split; [reflexivity|]. simpl. repeat split; try done. by left. }
  destruct (includesTicker (guesses (loadState (today w) (stored w))) (ticker c)) eqn:Hi.
  { do 2 eexists. split; [reflexivity|]. simpl. repeat split; try done. by left. }
  destruct Hrej as [?|[?|[?|[?|[?|(c' & [= <-] & ?)]]]]]; try done. congruence.
Qed.

Lemma submitGuess_accepts_effect
    (w : World) (inputValue : option string) (ans company : Company) :
  accepts w inputValue ans company →
  ∃ row u,
    guessRow company ans = Ok row
    ∧ submitGuess w inputValue
      = Ok (Accepted company,
            mkWorld (globals w) (today w)
              (saveState (acceptedState (loadState (today w) (stored w)) ans company)) u)
    ∧ rows u = row :: rows (ui w)
    ∧ attemptsText u
      = pretty (length (guesses (acceptedState (loadState (today w) (stored w)) ans company)))
        +:+ " / " +:+ pretty MAX_GUESSES
    ∧ locked u
      = (if finished (acceptedState (loadState (today w) (stored w)) ans company)
         then true else locked (ui w))
    ∧ shareHidden u
      = negb (finished (acceptedState (loadState (today w) (stored w)) ans company))
    ∧ guessInputValue u = "" ∧ suggestions u = [].
Proof.
  unfold accepts, active, submitGuess, finished. fold (rawInput w inputValue).
  intros (Hans & [Hs Hl] & Hr & Hc & Hi).
  rewrite Hans, Hs. rewrite bool_decide_eq_false_2 by lia.
  apply String.eqb_neq in Hr. rewrite Hr, Hc, Hi.
  destruct (renderGuessRow_ok (globals w) ans company (ui w) Hans) as (row & Hrow & ->).
  exists row. unfold acceptedState. simpl.
  destruct (String.eqb (ticker company) (ticker ans)) eqn:Heq; simpl.
  - eexists. split; [done|]. split; [reflexivity|]. simpl. by repeat split.
  - case_bool_decide as Hm; eexists; (split; [done|]); (split; [reflexivity|]); simpl.
    + rewrite bool_decide_eq_true_2 by done. by repeat split.
    + rewrite bool_decide_eq_false_2 by done. by repeat split.
Qed.

Lemma submitGuess_effect (w : World) (inputValue : option string) :
  ∃ o w', submitGuess w inputValue = Ok (o, w')
    ∧ globals w' = globals w ∧ today w' = today w
    ∧ (keepsSession w w' ∨ ∃ ans c row, addsGuess w w' ans c row).
Proof.
  destruct (rejects_or_accepts w inputValue) as [Hrej|(ans & c & Hacc)].
  - destruct (submitGuess_rejects_effect w inputValue Hrej)
      as (o & u & Hsub & _ & Hrows & Hatt & Hlock).
    exists o, (withUI w u). repeat split; try done. left. by repeat split.
  - destruct (submitGuess_accepts_effect w inputValue ans c Hacc)
      as (row & u & Hrow & Hsub & Hrows & Hatt & Hlock & Hshare & _).
    eexists _, _. split; [exact Hsub|]. repeat split; try done.
    right. exists ans, c, row. repeat split; try done. by exists inputValue.
Qed.

Lemma handle_effect (w : World) (ev : Event) :
  keepsDay ev = true →
  ∃ w', handle w ev = Ok w'
    ∧ globals w' = globals w ∧ today w' = today w
    ∧ (keepsSession w w' ∨ ∃ ans c row, addsGuess w w' ans c row).
Proof.
  assert (∀ inputValue, ∃ w', (r ← submitGuess w inputValue; mret r.2) = Ok w'
            ∧ globals w' = globals w ∧ today w' = today w
            ∧ (keepsSession w w' ∨ ∃ ans c row, addsGuess w w' ans c row)) as Hsub.
  { intros inputValue.
    destruct (submitGuess_effect w inputValue) as (o & w' & -> & ?). by exists w'. }
  assert (keepsSession w w) as Hsame by (repeat split; by left).
  intros Hev. destruct ev; try discriminate Hev; simpl; try apply Hsub.
  - eexists. split; [reflexivity|]. repeat split; try done. left. repeat split. by left.
  - destruct (submitGuess_effect w None) as (o & w' & -> & HG & Ht & Hcase). simpl.
    eexists. split; [reflexivity|]. split; [done|]. split; [done|].
    destruct Hcase as [Hk|(ans & c & row & Ha)]; [left; exact Hk|].
    right. exists ans, c, row. exact Ha.
  - destruct (suggestions (ui w) !! i); [apply Hsub|]. exists w. by repeat split; try left.
  - eexists. split; [reflexivity|]. repeat split; try done. left. repeat split. by left.
  - eexists. split; [reflexivity|]. repeat split; try done. left. repeat split. by left.
Qed.

Lemma loadState_accepted (w w' : World) (ans c : Company) (row : list Cell) :
  today w' = today w → addsGuess w w' ans c row →
  loadState (today w') (stored w') = acceptedState (loadState (today w) (stored w)) ans c.
Proof.
  intros Ht (_ & _ & -> & _). rewrite Ht. apply accepted_state_loaded.
Qed.

(** ** Sessions over any sequence of events *)

(** X9: once the session is solved or has its eight guesses, no
    sequence of events within the same day changes what is stored:
    as long as no midnight passes, every event returns and the stored
    item, the answer and the day stay as they are.  (Past midnight the
    session is loaded afresh and a guess is accepted again, see
    [first_guess_of_a_new_day].) *)
Theorem finished_session_is_final (w : World) (evs : list Event) :
  withinDay evs = true →
  finished (loadState (today w) (stored w)) = true →
  ∃ w', handleAll w evs = Ok w'
    ∧ stored w' = stored w ∧ globals w' = globals w ∧ today w' = today w.
Proof.
  revert w. induction evs as [|ev evs IH]; intros w Hday Hfin; simpl.
  - by exists w.
  - apply andb_true_iff in Hday as [Hev Hday].
    destruct (handle_effect w ev Hev) as (w1 & -> & HG & Ht & Hcase). simpl.
    assert (stored w1 = stored w) as Hst.
    { destruct Hcase as [[? _]|(ans & c & row & [inp Hacc] & _)]; [done|].
      destruct Hacc as (_ & [Hs Hl] & _). unfold finished in Hfin.
      rewrite Hs in Hfin. simpl in Hfin. apply bool_decide_eq_true_1 in Hfin. lia. }
    destruct (IH w1) as (w' & Hrun & ? & ? & ?); [done|by rewrite Ht, Hst|].
    exists w'. split; [done|]. repeat split; congruence.
Qed.

Lemma finished_session_is_final_witness :
  withinDay [TypeText "gamma"; ClickSuggestion 0; PressEnter] = true
  ∧ finished (loadState (today (Sample.world (saveState Sample.won)))
                        (stored (Sample.world (saveState Sample.won)))) = true
  ∧ ∃ w', handleAll (Sample.world (saveState Sample.won))
            [TypeText "gamma"; ClickSuggestion 0; PressEnter] = Ok w'
          ∧ stored w' = saveState Sample.won.
Proof.
  assert (finished (loadState (today (Sample.world (saveState Sample.won)))
                              (stored (Sample.world (saveState Sample.won)))) = true)
    as Hfin by (vm_compute; reflexivity).
  split; [reflexivity|]. split; [exact Hfin|].
  destruct (finished_session_is_final (Sample.world (saveState Sample.won))
              [TypeText "gamma"; ClickSuggestion 0; PressEnter] eq_refl Hfin)
    as (w' & Hrun & Hst & _).
  exists w'. split; [exact Hrun|exact Hst].
Defined.

(** The condition on midnight is needed: when the clock passes to the
    next day while the page stays open, [loadState] finds the stored
    date stale, the session starts afresh and the next guess is stored,
    against the answer of the day the page was loaded on. *)
Example midnight_reopens_a_finished_session :
  finished (loadState Sample.day (saveState Sample.won)) = true
  ∧ ∃ w', handleAll (Sample.world (saveState Sample.won))
            [NewDay "2024-01-02"; TypeText "gamma"; PressEnter] = Ok w'
          ∧ stored w' = saveState (mkState "2024-01-02" [JStr "GAM"] false)
          ∧ answer (globals w') = Some Sample.acme.
Proof.
  split; [vm_compute; reflexivity|]. eexists. split; [vm_compute; reflexivity|].
  split; vm_compute; reflexivity.
Qed.

Lemma wellPlayed_fresh (ans : Company) (day : string) : wellPlayed ans (freshState day).
Proof.
  unfold wellPlayed, freshState. simpl. repeat split; try done.
  - constructor.
  - lia.
  - by intros ?%elem_of_nil.
Qed.

Lemma wellPlayed_accepted (w : World) (inputValue : option string) (ans c : Company) :
  accepts w inputValue ans c →
  wellPlayed ans (loadState (today w) (stored w)) →
  wellPlayed ans (acceptedState (loadState (today w) (stored w)) ans c).
Proof.
  intros (_ & [Hs Hl] & _ & _ & Hfresh%includesTicker_false) (Hnd & Hlen & Hiff & Hlast).
  unfold wellPlayed, acceptedState. simpl. repeat split.
  - apply NoDup_app. repeat split; [done| |apply NoDup_singleton].
    intros x Hx ->%list_elem_of_singleton. done.
  - rewrite length_app. simpl. lia.
  - intros ->%String.eqb_eq. apply elem_of_app. right. by left.
  - intros [Hold|Hnew%list_elem_of_singleton]%elem_of_app.
    + apply Hiff in Hold. congruence.
    + injection Hnew as ->. apply String.eqb_refl.
  - intros ->%String.eqb_eq. by rewrite last_snoc.
Qed.

(** X10: play within a day keeps a session well played.  From a
    session with no repeated guess, at most eight guesses, solved
    exactly when the answer's ticker is among them and then as the last
    one, any sequence of events during which no midnight passes returns
    and leaves such a session, whose guess list begins with the old
    one. *)
Theorem play_keeps_session_well_played (w : World) (ans : Company) (evs : list Event) :
  withinDay evs = true →
  answer (globals w) = Some ans →
  wellPlayed ans (loadState (today w) (stored w)) →
  ∃ w', handleAll w evs = Ok w'
    ∧ wellPlayed ans (loadState (today w') (stored w'))
    ∧ guesses (loadState (today w) (stored w))
        `prefix_of` guesses (loadState (today w') (stored w')).
Proof.
  revert w. induction evs as [|ev evs IH]; intros w Hday Hans Hwp; simpl.
  - by exists w.
  - apply andb_true_iff in Hday as [Hev Hday].
    destruct (handle_effect w ev Hev) as (w1 & -> & HG & Ht & Hcase). simpl.
    assert (wellPlayed ans (loadState (today w1) (stored w1))
            ∧ guesses (loadState (today w) (stored w))
                `prefix_of` guesses (loadState (today w1) (stored w1))) as [Hwp1 Hpre].
    { destruct Hcase as [[Hst _]|(ans' & c & row & Hadd)].
      - by rewrite Ht, Hst.
      - rewrite (loadState_accepted w w1 ans' c row Ht Hadd).
        destruct Hadd as ([inp Hacc] & _).
        assert (ans' = ans) as -> by (destruct Hacc as [? _]; congruence).
        split; [by eapply wellPlayed_accepted|]. by apply prefix_app_r. }
    destruct (IH w1) as (w' & Hrun & Hwp' & Hpre'); [done|congruence|done|].
    exists w'. split; [done|]. split; [done|]. by etrans.
Qed.

Lemma play_keeps_session_well_played_witness :
  withinDay [TypeText "beta"; PressEnter; TypeText "acm"; ClickSuggestion 0; PressEnter] = true
  ∧ answer (globals (Sample.world Absent)) = Some Sample.acme
  ∧ wellPlayed Sample.acme (loadState (today (Sample.world Absent))
                                      (stored (Sample.world Absent)))
  ∧ ∃ w', handleAll (Sample.world Absent)
            [TypeText "beta"; PressEnter; TypeText "acm"; ClickSuggestion 0; PressEnter]
          = Ok w'
          ∧ wellPlayed Sample.acme (loadState (today w') (stored w')).
Proof.
  assert (wellPlayed Sample.acme (loadState (today (Sample.world Absent))
                                            (stored (Sample.world Absent)))) as Hwp
    by apply wellPlayed_fresh.
  split; [reflexivity|]. split; [reflexivity|]. split; [exact Hwp|].
  destruct (play_keeps_session_well_played (Sample.world Absent) Sample.acme
              [TypeText "beta"; PressEnter; TypeText "acm"; ClickSuggestion 0; PressEnter]
              eq_refl eq_refl Hwp) as (w' & Hrun & Hwp' & _).
  exists w'. split; [exact Hrun|exact Hwp'].
Defined.

(** ** Redrawing the page *)

Lemma renderStored_rows (G : Globals) (ans : Company) (gs : list json) :
  answer G = Some ans →
  ∀ u, ∃ u', renderStored G gs u = Ok u'
    ∧ rows u' = foldl (fun rs t =>
                         match lookupGuess G t with
                         | Some c => match guessRow c ans with
                                     | Ok row => row :: rs
                                     | Throw _ => rs
                                     end
                         | None => rs
                         end) (rows u) gs
    ∧ statusText u' = statusText u ∧ attemptsText u' = attemptsText u
    ∧ locked u' = locked u ∧ shareHidden u' = shareHidden u
    ∧ guessInputValue u' = guessInputValue u ∧ suggestions u' = suggestions u.
Proof.
  intros Hans. induction gs as [|t gs IH]; intros u; simpl; [by exists u|].
  destruct (lookupGuess G t) as [c|]; [|apply IH].
  destruct (renderGuessRow_ok G ans c u Hans) as (row & Hrow & ->). simpl.
  rewrite Hrow. destruct (IH (prependRow row u)) as (u' & -> & Hr & ?).
  exists u'. split; [done|]. split; [exact Hr|exact H].
Qed.

Lemma hydrateFromState_view (G : Globals) (ans : Company) (st : State) (u : UI) :
  answer G = Some ans →
  ∃ uh, hydrateFromState G st u = Ok uh
    ∧ viewOf uh = (boardRows G ans (guesses st),
                   pretty (length (guesses st)) +:+ " / " +:+ pretty MAX_GUESSES,
                   finished st, negb (finished st)).
Proof.
  intros Hans. unfold hydrateFromState.
  destruct (renderStored_rows G ans (guesses st) Hans (clearBoard u))
    as (u1 & -> & Hrows & _). simpl. rewrite Hans.
  unfold viewOf, finished, boardRows.
  destruct (solved st) eqn:Hs; simpl.
  { eexists; split; [reflexivity|]; simpl. by rewrite Hrows, Hs. }
  case_bool_decide as Hm; simpl; eexists; (split; [reflexivity|]); simpl; rewrite Hrows, Hs.
  - by rewrite bool_decide_eq_true_2.
  - by rewrite bool_decide_eq_false_2.
Qed.

Lemma boardRows_snoc (G : Globals) (ans c : Company) (row : list Cell) (gs : list json) :
  byTicker G !! ticker c = Some c → guessRow c ans = Ok row →
  boardRows G ans (gs ++ [JStr (ticker c)]) = row :: boardRows G ans gs.
Proof.
  intros Hc Hrow. unfold boardRows. rewrite foldl_app. simpl. by rewrite Hc, Hrow.
Qed.

Lemma handle_redrawn (w : World) (ans : Company) (ev : Event) :
  keepsDay ev = true →
  answer (globals w) = Some ans → indexedByTicker (globals w) → redrawn w →
  ∃ w', handle w ev = Ok w' ∧ globals w' = globals w ∧ redrawn w'.
Proof.
  intros Hkeep Hans Hidx Hre.
  destruct (handle_effect w ev Hkeep) as (w1 & Hev & HG & Ht & Hcase).
  exists w1. split; [done|]. split; [done|]. intros u.
  destruct (Hre u) as (uh & Hh & Hview).
  destruct (hydrateFromState_view (globals w) ans (loadState (today w) (stored w)) u Hans)
    as (uh0 & Hh0 & Hv0).
  assert (uh0 = uh) as -> by congruence.
  destruct (hydrateFromState_view (globals w1) ans (loadState (today w1) (stored w1)) u)
    as (uh1 & Hh1 & Hv1); [congruence|].
  exists uh1. split; [done|]. rewrite Hv1. rewrite Hv0 in Hview.
  unfold viewOf in Hview. injection Hview as Hrows Hatt Hlock Hshare.
  destruct Hcase as [(Hst & Hr & Ha & Hl)|(ans' & c & row & Hadd)].
  - rewrite HG, Ht, Hst. unfold viewOf. rewrite Hr, Ha, Hrows, Hatt.
    destruct Hl as [[-> ->]|(Hfin & -> & ->)]; [by rewrite Hlock, Hshare|].
    by rewrite Hfin.
  - rewrite (loadState_accepted w w1 ans' c row Ht Hadd).
    destruct Hadd as ([inp Hacc] & Hrow & _ & Hr & Ha & Hl & Hs).
    assert (ans' = ans) as -> by (destruct Hacc as [? _]; congruence).
    unfold viewOf. rewrite Hr, Ha, Hl, Hs, Hrows, HG.
    assert (byTicker (globals w) !! ticker c = Some c) as Hc.
    { destruct Hacc as (_ & _ & _ & Hres & _). by eapply Hidx. }
    unfold acceptedState at 1. simpl guesses.
    rewrite (boardRows_snoc _ _ _ row _ Hc Hrow).
    destruct (finished (acceptedState _ ans c)) eqn:Hfin; [done|].
    rewrite Hlock. destruct Hacc as (_ & [Hsol Hlen] & _).
    unfold finished. rewrite Hsol. simpl. by rewrite bool_decide_eq_false_2 by lia.
Qed.

Lemma handleAll_redrawn (evs : list Event) :
  ∀ (w : World) (ans : Company),
    withinDay evs = true →
    answer (globals w) = Some ans → indexedByTicker (globals w) → redrawn w →
    ∃ w', handleAll w evs = Ok w' ∧ globals w' = globals w ∧ redrawn w'.
Proof.
  induction evs as [|ev evs IH]; intros w ans Hday Hans Hidx Hre; simpl; [by exists w|].
  apply andb_true_iff in Hday as [Hev Hday].
  destruct (handle_redrawn w ans ev Hev Hans Hidx Hre) as (w1 & -> & HG & Hre1). simpl.
  destruct (IH w1 ans) as (w' & Hrun & HG' & Hre'); [done|congruence|by rewrite HG|done|].
  exists w'. split; [done|]. split; [congruence|done].
Qed.

Lemma init_redrawn (cs sorted : list Company) (day : string) (item : Stored) (u : UI)
    (ans : Company) :
  pickDailyAnswer sorted day = Some ans →
  ∃ w, init cs sorted day item u = Ok w
       ∧ globals w = initGlobals cs sorted day ∧ stored w = item ∧ today w = day
       ∧ redrawn w.
Proof.
  intros Hans. unfold init. simpl. rewrite Hans.
  destruct (hydrateFromState_view (initGlobals cs sorted day) ans (loadState day item) u)
    as (uh & Hh & Hv); [done|].
  rewrite Hh. simpl. eexists. split; [reflexivity|]. repeat split.
  intros u1. simpl.
  destruct (hydrateFromState_view (initGlobals cs sorted day) ans (loadState day item) u1)
    as (uh1 & Hh1 & Hv1); [done|].
  exists uh1. split; [done|]. by rewrite Hv, Hv1.
Qed.

(** X11: within a day a reload does not change the page.  When the
    list has pairwise different tickers and the day has an answer,
    [init] returns, every sequence of events after it during which no
    midnight passes returns, and the board, the attempts counter, the
    lock and the share button then on the page are the ones
    [hydrateFromState] draws from the stored session. *)
Theorem page_matches_reload
    (cs sorted : list Company) (day : string) (item : Stored) (u : UI) (evs : list Event) :
  withinDay evs = true →
  NoDup (ticker <$> cs) → is_Some (pickDailyAnswer sorted day) →
  ∃ w0 w', init cs sorted day item u = Ok w0
    ∧ handleAll w0 evs = Ok w'
    ∧ ∀ u1, ∃ uh,
        hydrateFromState (globals w') (loadState (today w') (stored w')) u1 = Ok uh
        ∧ viewOf (ui w') = viewOf uh.
Proof.
  intros Hday Hnd [ans Hans].
  destruct (init_redrawn cs sorted day item u ans Hans) as (w0 & Hinit & HG & _ & _ & Hre).
  destruct (handleAll_redrawn evs w0 ans) as (w' & Hrun & _ & Hre'); try done.
  - by rewrite HG.
  - rewrite HG. by apply initGlobals_indexed.
  - by exists w0, w'.
Qed.

Lemma page_matches_reload_witness :
  withinDay [TypeText "beta"; PressEnter; TypeText "gam"; ClickSuggestion 0] = true
  ∧ NoDup (ticker <$> Sample.roster)
  ∧ is_Some (pickDailyAnswer Sample.roster Sample.day)
  ∧ ∃ w0 w', init Sample.roster Sample.roster Sample.day Absent Sample.page = Ok w0
      ∧ handleAll w0 [TypeText "beta"; PressEnter; TypeText "gam"; ClickSuggestion 0] = Ok w'
      ∧ ∃ uh, hydrateFromState (globals w') (loadState (today w') (stored w')) Sample.page
              = Ok uh
              ∧ viewOf (ui w') = viewOf uh.
Proof.
  assert (NoDup (ticker <$> Sample.roster)) as H1
    by (apply (bool_decide_unpack (NoDup _)); vm_compute; exact I).
  assert (is_Some (pickDailyAnswer Sample.roster Sample.day)) as H2
    by (vm_compute; eexists; reflexivity).
  split; [reflexivity|]. split; [exact H1|]. split; [exact H2|].
  destruct (page_matches_reload Sample.roster Sample.roster Sample.day Absent Sample.page
              [TypeText "beta"; PressEnter; TypeText "gam"; ClickSuggestion 0]
              eq_refl H1 H2)
    as (w0 & w' & Hinit & Hrun & Hre).
  exists w0, w'. split; [exact Hinit|]. split; [exact Hrun|]. exact (Hre Sample.page).
Defined.

(** ** The lines of the share text *)

Lemma shareTiles_seven (g ans : Company) :
  ∃ tiles, shareTiles g ans = Ok tiles ∧ length tiles = 7%nat.
Proof.
  destruct (guessRow_cells g ans)
    as (f & fa & p & pa & m & ma & e & ea & q & qa & _ & _ & _ & _ & _ & _ & _ & _ & _ & _
        & _ & ->).
  by eexists.
Qed.

(** X12: with an answer in place [makeShareText] returns; its tile
    lines follow the guess list in order, one line of exactly seven
    tiles for each guess that [byTicker] knows and none for the others. *)
Theorem shareLines_shape (G : Globals) (ans : Company) (gs : list json) :
  answer G = Some ans →
  ∃ lines, shareLines G gs = Ok lines
    ∧ Forall (fun tiles => length tiles = 7%nat) lines
    ∧ Forall2 (fun c tiles => shareTiles c ans = Ok tiles) (omap (lookupGuess G) gs) lines.
Proof.
  intros Hans. induction gs as [|t gs (lines & IH & H7 & Hall)]; simpl.
  - exists []. by repeat split.
  - destruct (lookupGuess G t) as [c|]; [|by exists lines].
    rewrite Hans, IH. destruct (shareTiles_seven c ans) as (tiles & Ht & Hlen).
    rewrite Ht. exists (tiles :: lines). repeat split; by constructor.
Qed.

Lemma shareLines_shape_witness :
  answer Sample.G = Some Sample.acme
  ∧ ∃ lines, shareLines Sample.G [JStr "BET"; JNum 7; JStr "ZZZ"; JStr "ACM"] = Ok lines
             ∧ length lines = 2%nat.
Proof.
  split; [reflexivity|].
  destruct (shareLines_shape Sample.G Sample.acme
              [JStr "BET"; JNum 7; JStr "ZZZ"; JStr "ACM"] eq_refl)
    as (lines & Hl & _ & Hall).
  exists lines. split; [exact Hl|].
  apply Forall2_length in Hall. rewrite <- Hall. vm_compute. reflexivity.
Defined.

(** ** The row of the answer itself *)

Lemma sameKnownBucket_self (v : value) (defs : list Bucket) (r : BucketResult) :
  bucketUpper v defs = Ok r → sameKnownBucket r r = negb (isUnknown v).
Proof.
  intros Hr. unfold sameKnownBucket. rewrite Z.eqb_refl. simpl. f_equal.
  apply eq_true_iff_eq. rewrite Z.eqb_eq. exact (bucketUpper_index_unknown v defs r Hr).
Qed.

(** X13: when the guessed company is the answer, the company, sector,
    headquarters and P/E cells are matches, and each of the founded,
    price, market-cap and employees cells is a match exactly when the
    answer's value is known; the share text has seven green tiles for
    that guess whatever the values. *)
Theorem guessRow_of_the_answer (ans : Company) :
  ∃ c0 c1 c2 c3 c4 c5 c6 c7,
    guessRow ans ans = Ok [c0; c1; c2; c3; c4; c5; c6; c7]
    ∧ cellOk c0 = true ∧ cellOk c1 = true ∧ cellOk c2 = true
    ∧ cellOk c3 = negb (isUnknown (founded ans))
    ∧ cellOk c4 = negb (isUnknown (price ans))
    ∧ cellOk c5 = negb (isUnknown (marketCap ans))
    ∧ cellOk c6 = negb (isUnknown (employees ans))
    ∧ cellOk c7 = true
    ∧ shareTiles ans ans = Ok [Green; Green; Green; Green; Green; Green; Green].
Proof.
  destruct (guessRow_cells ans ans)
    as (f & fa & p & pa & m & ma & e & ea & q & qa
        & Hf & Hfa & Hp & Hpa & Hm & Hma & He & Hea & Hq & Hqa & Hrow & Htiles).
  assert (fa = f) as -> by congruence. assert (pa = p) as -> by congruence.
  assert (ma = m) as -> by congruence. assert (ea = e) as -> by congruence.
  assert (qa = q) as -> by congruence.
  assert (peOk q q = true) as Hpe.
  { unfold peOk. rewrite Z.eqb_refl. by destruct (index q =? -1). }
  do 8 eexists. split; [exact Hrow|]. simpl.
  rewrite !String.eqb_refl, Hpe.
  rewrite (sameKnownBucket_self _ _ _ Hf), (sameKnownBucket_self _ _ _ Hp),
    (sameKnownBucket_self _ _ _ Hm), (sameKnownBucket_self _ _ _ He).
  repeat split. rewrite Htiles, !String.eqb_refl, !Z.eqb_refl, Hpe. done.
Qed.

(** ** Buckets and arrows agree *)

Lemma bucketUpper_num_eq (x y : num) (defs : list Bucket) :
  num_eq x y = true → bucketUpper (Num x) defs = bucketUpper (Num y) defs.
Proof.
  intros Heq.
  assert (∀ i, bucketScan x i defs = bucketScan y i defs) as Hscan.
  { induction defs as [|b rest IH]; intros i; simpl; [done|].
    by rewrite (num_eq_lt_l _ _ _ Heq), IH. }
  destruct x, y; try done; simpl; by rewrite Hscan.
Qed.

Lemma bucketUpper_monotone (x y : num) (defs : list Bucket) :
  defs ≠ [] → x ≠ NaN → y ≠ NaN → num_lt x y = true →
  ∃ rx ry, bucketUpper (Num x) defs = Ok rx ∧ bucketUpper (Num y) defs = Ok ry
           ∧ index rx ≤ index ry.
Proof.
  intros Hdefs Hx Hy Hlt.
  destruct (bucketUpper_present x defs Hx Hdefs)
    as (rx & kx & bx & Hrx & Hix & Hkx & _ & Hminx & Hlastx).
  destruct (bucketUpper_present y defs Hy Hdefs)
    as (ry & ky & by_ & Hry & Hiy & Hky & _ & Hminy & Hlasty).
  exists rx, ry. split; [done|]. split; [done|]. rewrite Hix, Hiy.
  destruct (decide (kx ≤ ky)%nat) as [|Hgt]; [lia|]. exfalso.
  assert (num_lt x (upper by_) = false) as Hno by (apply (Hminx ky); [lia|done]).
  apply lookup_lt_Some in Hkx.
  destruct Hlasty as [Hb|[? _]]; [|lia].
  by rewrite (num_lt_trans _ _ _ Hlt Hb) in Hno.
Qed.

(** X14: the arrow of a numeric cell points to the answer's bucket.  For
    two numbers (not NaN) on a non-empty table, a cell that is a miss
    shows the up arrow exactly when the guess falls in a lower bucket
    than the answer and the down arrow exactly when it falls in a higher
    one, and it always shows one of the two. *)
Theorem miss_arrow_points_to_answer_bucket (g a : num) (defs : list Bucket) :
  defs ≠ [] → g ≠ NaN → a ≠ NaN →
  ∃ rg ra c,
    bucketUpper (Num g) defs = Ok rg ∧ bucketUpper (Num a) defs = Ok ra
    ∧ numericCell (Num g) (Num a) defs = Ok c
    ∧ (cellOk c = false →
       (cellArrow c = Up ↔ index rg < index ra)
       ∧ (cellArrow c = Down ↔ index ra < index rg)
       ∧ cellArrow c ≠ NoArrow).
Proof.
  intros Hdefs Hg Ha.
  destruct (numericCell_ok (Num g) (Num a) defs Hdefs) as (rg & ra & Hrg & Hra & Hc).
  exists rg, ra. eexists. split; [done|]. split; [done|]. split; [exact Hc|].
  unfold makeNumericCell. cbn [cellOk cellArrow]. intros Hmiss. rewrite Hmiss. cbn [negb].
  assert (index rg ≠ -1) as Hknown.
  { intros Hi. apply (bucketUpper_index_unknown _ _ _ Hrg) in Hi. by destruct g. }
  assert (index rg ≠ index ra) as Hne.
  { intros Heq. unfold sameKnownBucket in Hmiss.
    apply andb_false_iff in Hmiss as [?%Z.eqb_neq|?%negb_false_iff%Z.eqb_eq]; done. }
  destruct (num_eq g a) eqn:Heq.
  { rewrite (bucketUpper_num_eq g a defs Heq) in Hrg. congruence. }
  destruct (arrowFor_numbers g a Hg Ha) as (Hup & Hdown & Hnone & _).
  destruct (num_trichotomy g a Hg Ha Heq) as [[Hlt Hgt]|[Hlt Hgt]].
  - destruct (bucketUpper_monotone g a defs Hdefs Hg Ha Hlt) as (rg' & ra' & ? & ? & Hle).
    assert (rg' = rg) as -> by congruence. assert (ra' = ra) as -> by congruence.
    apply Hup in Hlt as ->. repeat split; try done; lia.
  - destruct (bucketUpper_monotone a g defs Hdefs Ha Hg Hgt) as (ra' & rg' & ? & ? & Hle).
    assert (rg' = rg) as -> by congruence. assert (ra' = ra) as -> by congruence.
    apply Hdown in Hgt as ->. repeat split; try done; lia.
Qed.

Lemma miss_arrow_points_to_answer_bucket_witness :
  BUCKETS.price ≠ [] ∧ Fin 42 ≠ NaN ∧ Fin 260 ≠ NaN
  ∧ ∃ c, numericCell (Num (Fin 42)) (Num (Fin 260)) BUCKETS.price = Ok c
         ∧ cellOk c = false ∧ cellArrow c = Up.
Proof.
  assert (BUCKETS.price ≠ []) as H1 by discriminate.
  assert (Fin 42 ≠ NaN) as H2 by discriminate.
  assert (Fin 260 ≠ NaN) as H3 by discriminate.
  split; [exact H1|]. split; [exact H2|]. split; [exact H3|].
  destruct (miss_arrow_points_to_answer_bucket (Fin 42) (Fin 260) BUCKETS.price H1 H2 H3)
    as (rg & ra & c & Hrg & Hra & Hc & Harrow).
  exists c. split; [exact Hc|].
  assert (cellOk c = false) as Hmiss.
  { vm_compute in Hc. injection Hc as <-. reflexivity. }
  split; [exact Hmiss|].
  apply (proj1 (Harrow Hmiss)).
  vm_compute in Hrg, Hra. injection Hrg as <-. injection Hra as <-. reflexivity.
Defined.

(** ** Hash and shuffle *)

(** X15: the hash is a non-negative integer below 2^53, hence exact as
    a double, and the seed taken from it is a 32-bit integer. *)
Theorem cyrb53_range (str : string) (seed : Z) :
  0 ≤ cyrb53 str seed < 2 ^ 53 ∧ 0 ≤ u32 (cyrb53 str seed) < 2 ^ 32.
Proof.
  split; [|apply u32_range]. unfold cyrb53.
  destruct (cyrb53_loop _ _ _) as [h1 h2]. cbv zeta.
  assert (∀ h, 0 ≤ Z.land 2097151 h < 2 ^ 21) as Hland.
  { intros h. change 2097151 with (Z.ones 21). rewrite Z.land_comm, Z.land_ones by lia.
    apply Z.mod_pos_bound. lia. }
  match goal with
  | |- 0 ≤ 4294967296 * Z.land 2097151 ?h2' + u32 ?h1' < _ =>
      pose proof (u32_range h1'); pose proof (Hland h2')
  end.
  lia.
Qed.

(** X16: the shuffle keeps the elements: its result is a permutation of
    the array, of the same length, with the same members, without
    repeats if the array had none; and an array of at most one element
    comes back as it is. *)
Theorem seededShuffle_keeps_elements {A : Type} (arr : list A) (seedStr : string) :
  seededShuffle arr seedStr ≡ₚ arr
  ∧ length (seededShuffle arr seedStr) = length arr
  ∧ (∀ x, x ∈ seededShuffle arr seedStr ↔ x ∈ arr)
  ∧ (NoDup arr → NoDup (seededShuffle arr seedStr))
  ∧ ((length arr ≤ 1)%nat → seededShuffle arr seedStr = arr).
Proof.
  pose proof (seededShuffle_perm arr seedStr) as Hperm.
  split; [done|]. split; [by rewrite Hperm|]. split; [intros x; by rewrite Hperm|].
  split; [by rewrite Hperm|].
  intros Hlen. unfold seededShuffle.
  replace (length arr - 1)%nat with 0%nat by lia. done.
Qed.

Lemma seededShuffle_keeps_elements_witness :
  NoDup Sample.roster ∧ NoDup (seededShuffle Sample.roster ANSWER_SALT).
Proof.
  assert (NoDup Sample.roster) as H
    by (apply (bool_decide_unpack (NoDup Sample.roster)); vm_compute; exact I).
  split; [exact H|].
  destruct (seededShuffle_keeps_elements Sample.roster ANSWER_SALT) as (_ & _ & _ & Hnd & _).
  exact (Hnd H).
Defined.

(** ** Storage across days *)

(** X17: what [saveState] stores, [loadState] gives back on the day of
    the session and discards on any other day. *)
Theorem saveState_loadState (day : string) (st : State) :
  (date st = day → loadState day (saveState st) = st)
  ∧ (date st ≠ day → loadState day (saveState st) = mkState day [] false).
Proof.
  split; [apply loadState_saveState|].
  intros Hne. apply loadState_stale. unfold saveState, stateToJson. simpl.
  rewrite lookup_insert_eq. by intros [= ?].
Qed.

Lemma saveState_loadState_witness :
  date Sample.won = Sample.day ∧ loadState Sample.day (saveState Sample.won) = Sample.won
  ∧ date Sample.won ≠ "2024-01-02"
  ∧ loadState "2024-01-02" (saveState Sample.won) = mkState "2024-01-02" [] false.
Proof.
  assert (date Sample.won ≠ "2024-01-02") as Hne by discriminate.
  split; [reflexivity|].
  split; [exact (proj1 (saveState_loadState Sample.day Sample.won) eq_refl)|].
  split; [exact Hne|].
  exact (proj2 (saveState_loadState "2024-01-02" Sample.won) Hne).
Defined.

(** X18: on the first accepted guess of a new day the session of the
    earlier day is gone: with a stored session dated otherwise, an
    answer in place and a typed text that resolves to a company, the
    call is accepted and the stored session of today holds that one
    guess, solved exactly when it is the answer. *)
Theorem first_guess_of_a_new_day
    (w : World) (old : State) (inputValue : option string) (ans c : Company) :
  stored w = saveState old → date old ≠ today w →
  answer (globals w) = Some ans →
  rawInput w inputValue ≠ "" →
  resolveCompany (globals w) (rawInput w inputValue) = Some c →
  ∃ w', submitGuess w inputValue = Ok (Accepted c, w')
    ∧ today w' = today w
    ∧ loadState (today w') (stored w')
      = mkState (today w) [JStr (ticker c)] (String.eqb (ticker c) (ticker ans)).
Proof.
  intros Hst Hdate Hans Hraw Hres.
  assert (loadState (today w) (stored w) = freshState (today w)) as Hfresh.
  { rewrite Hst. apply loadState_stale. unfold saveState, stateToJson. simpl.
    rewrite lookup_insert_eq. by intros [= ?]. }
  assert (accepts w inputValue ans c) as Hacc.
  { unfold accepts, active. rewrite Hfresh. simpl. repeat split; try done.
    unfold MAX_GUESSES. lia. }
  destruct (submitGuess_accepts w inputValue ans c Hacc) as [u Hsub].
  eexists. split; [exact Hsub|]. simpl. split; [done|].
  rewrite accepted_state_loaded, Hfresh. done.
Qed.

Lemma first_guess_of_a_new_day_witness :
  stored (mkWorld Sample.G "2024-01-02" (saveState Sample.won) Sample.page)
  = saveState Sample.won
  ∧ date Sample.won ≠ "2024-01-02"
  ∧ ∃ w', submitGuess (mkWorld Sample.G "2024-01-02" (saveState Sample.won) Sample.page)
                      (Some "gamma & sons")
          = Ok (Accepted Sample.gamma, w')
          ∧ loadState (today w') (stored w') = mkState "2024-01-02" [JStr "GAM"] false.
Proof.
  assert (date Sample.won ≠ "2024-01-02") as Hne by discriminate.
  split; [reflexivity|]. split; [exact Hne|].
  destruct (first_guess_of_a_new_day
              (mkWorld Sample.G "2024-01-02" (saveState Sample.won) Sample.page)
              Sample.won (Some "gamma & sons") Sample.acme Sample.gamma
              eq_refl Hne eq_refl) as (w' & Hsub & _ & Hload).
  - vm_compute. discriminate.
  - vm_compute. reflexivity.
  - exists w'. split; [exact Hsub|]. rewrite Hload. reflexivity.
Defined.

(** ** Blank input and missing answer *)

(** X19: in an active session, a submitted text of white space only
    (or none at all) is turned down with the prompt to type something;
    nothing else on the page and nothing in storage changes. *)
Theorem blank_input_is_turned_down (w : World) (inputValue : option string) (ans : Company) :
  answer (globals w) = Some ans →
  active (loadState (today w) (stored w)) →
  allSpace (default (guessInputValue (ui w)) inputValue) = true →
  submitGuess w inputValue
  = Ok (EmptyInput, withUI w (setStatus "Type a company name or ticker." (ui w))).
Proof.
  intros Hans [Hs Hl] Hblank. unfold submitGuess.
  rewrite Hans, Hs. rewrite bool_decide_eq_false_2 by lia.
  by rewrite (proj2 (trim_empty_iff _) Hblank).
Qed.

Lemma blank_input_is_turned_down_witness :
  answer (globals (Sample.world Absent)) = Some Sample.acme
  ∧ active (loadState (today (Sample.world Absent)) (stored (Sample.world Absent)))
  ∧ allSpace (default (guessInputValue (ui (Sample.world Absent))) (Some "   ")) = true
  ∧ ∃ w', submitGuess (Sample.world Absent) (Some "   ") = Ok (EmptyInput, w')
          ∧ stored w' = Absent.
Proof.
  assert (active (loadState (today (Sample.world Absent)) (stored (Sample.world Absent))))
    as Hact by (split; [reflexivity|vm_compute; lia]).
  split; [reflexivity|]. split; [exact Hact|]. split; [reflexivity|].
  eexists. split;
    [exact (blank_input_is_turned_down (Sample.world Absent) (Some "   ") Sample.acme
              eq_refl Hact eq_refl)|].
  reflexivity.
Defined.

(** X20: without an answer the page is inert.  An empty list and a date
    that has no day number give no answer; [init] then locks the page
    under the message "No data loaded." and draws nothing; and
    [submitGuess] returns the world as it found it. *)
Theorem no_answer_no_game
    (cs sorted : list Company) (day : string) (item : Stored) (u : UI) :
  pickDailyAnswer [] day = None
  ∧ (getUTCDayNumber day = None → pickDailyAnswer sorted day = None)
  ∧ (pickDailyAnswer sorted day = None →
     init cs sorted day item u
     = Ok (mkWorld (initGlobals cs sorted day) day item
             (lockUI true (setStatus "No data loaded." u)))
     ∧ ∀ w inputValue, answer (globals w) = None →
                       submitGuess w inputValue = Ok (NoAnswer, w)).
Proof.
  split; [done|]. split.
  - intros Hday. unfold pickDailyAnswer. rewrite Hday. by case_bool_decide.
  - intros Hnone. split.
    + unfold init. simpl. by rewrite Hnone.
    + intros w inputValue Hw. unfold submitGuess. by rewrite Hw.
Qed.

Lemma no_answer_no_game_witness :
  getUTCDayNumber "today" = None
  ∧ init Sample.roster Sample.roster "today" Absent Sample.page
    = Ok (mkWorld (initGlobals Sample.roster Sample.roster "today") "today" Absent
            (lockUI true (setStatus "No data loaded." Sample.page))).
Proof.
  assert (getUTCDayNumber "today" = None) as Hday by (vm_compute; reflexivity).
  split; [exact Hday|].
  destruct (no_answer_no_game Sample.roster Sample.roster "today" Absent Sample.page)
    as (_ & Hnan & Hinit).
  exact (proj1 (Hinit (Hnan Hday))).
Defined.

(** ** A click on a suggestion *)

Lemma trimStart_upper (s : string) : trimStart (toUpperCase s) = toUpperCase (trimStart s).
Proof.
  unfold toUpperCase. induction s as [|c r IH]; [done|]. simpl.
  rewrite isSpace_upper. by destruct (isSpace c).
Qed.

Lemma trimEnd_upper (s : string) : trimEnd (toUpperCase s) = toUpperCase (trimEnd s).
Proof.
  unfold toUpperCase. induction s as [|c r IH]; [done|]. simpl.
  rewrite IH, isSpace_upper. destruct (trimEnd r); [by destruct (isSpace c)|done].
Qed.

Lemma trim_idem (s : string) : trim (trim s) = trim s.
Proof.
  unfold trim. destruct (trimStart_spec s) as [->|(c & r & -> & Hc)]; [done|].
  rewrite trimEnd_keep by done. rewrite trimStart_fixed by done.
  rewrite <- (trimEnd_keep c r Hc). apply trimEnd_idem.
Qed.

Lemma toUpperCase_idem (s : string) : toUpperCase (toUpperCase s) = toUpperCase s.
Proof.
  unfold toUpperCase. induction s as [|c r IH]; [done|]. simpl.
  by rewrite toUpperChar_idem, IH.
Qed.

Lemma coerceTicker_stable (t : string) :
  trim (coerceTicker t) = coerceTicker t ∧ toUpperCase (coerceTicker t) = coerceTicker t.
Proof.
  unfold coerceTicker. split; [|apply toUpperCase_idem].
  unfold trim at 1. rewrite trimStart_upper, trimEnd_upper.
  change (trimEnd (trimStart (trim t))) with (trim (trim t)). by rewrite trim_idem.
Qed.

(** X21: a click on a suggestion guesses that company.  On the maps of
    [init] for a list with pairwise different tickers, when the clicked
    suggestion is a listed company whose ticker is text as [init]
    stores it (trimmed, upper case, not empty), the session is active
    and the ticker was not guessed, the click returns with the row of
    that company on top of the board and its ticker at the end of the
    stored guess list. *)
Theorem click_on_suggestion_guesses_it
    (w : World) (cs sorted : list Company) (day t0 : string) (i : nat) (c ans : Company) :
  globals w = initGlobals cs sorted day → NoDup (ticker <$> cs) → c ∈ cs →
  suggestions (ui w) !! i = Some c →
  asciiText t0 = true → ticker c = coerceTicker t0 → ticker c ≠ "" →
  answer (globals w) = Some ans →
  active (loadState (today w) (stored w)) →
  includesTicker (guesses (loadState (today w) (stored w))) (ticker c) = false →
  ∃ w' row, handle w (ClickSuggestion i) = Ok w'
    ∧ guessRow c ans = Ok row
    ∧ rows (ui w') = row :: rows (ui w)
    ∧ guesses (loadState (today w') (stored w'))
      = guesses (loadState (today w) (stored w)) ++ [JStr (ticker c)].
Proof.
  intros HG Hnd Hc Hsug _ Ht0 Hne Hans Hact Hfresh.
  destruct (coerceTicker_stable t0) as [Htrim Hup]. rewrite <- Ht0 in Htrim, Hup.
  assert (rawInput w (Some (ticker c)) = ticker c) as Hraw by exact Htrim.
  assert (accepts w (Some (ticker c)) ans c) as Hacc.
  { unfold accepts. rewrite Hraw. repeat split; try done; try apply Hact.
    rewrite HG. unfold resolveCompany. simpl. rewrite Hup.
    unfold makeByTicker. by rewrite (makeMap_unique ticker cs c Hnd Hc). }
  destruct (submitGuess_accepts_effect w (Some (ticker c)) ans c Hacc)
    as (row & u & Hrow & Hsub & Hrows & _).
  simpl. rewrite Hsug, Hsub. simpl. eexists _, row. split; [reflexivity|].
  split; [done|]. split; [done|]. simpl. by rewrite accepted_state_loaded.
Qed.

Lemma click_on_suggestion_guesses_it_witness :
  ∃ w0 w1 w2 row,
    init Sample.roster Sample.roster Sample.day Absent Sample.page = Ok w0
    ∧ handle w0 (TypeText "gam") = Ok w1
    ∧ suggestions (ui w1) !! 0%nat = Some Sample.gamma
    ∧ handle w1 (ClickSuggestion 0) = Ok w2
    ∧ rows (ui w2) = row :: rows (ui w1)
    ∧ guesses (loadState (today w2) (stored w2)) = [JStr "GAM"].
Proof.
  eexists _, _.
  assert (NoDup (ticker <$> Sample.roster)) as H1
    by (apply (bool_decide_unpack (NoDup _)); vm_compute; exact I).
  assert (Sample.gamma ∈ Sample.roster) as H2
    by (apply (bool_decide_unpack (_ ∈ _)); vm_compute; exact I).
  destruct (click_on_suggestion_guesses_it
              (mkWorld (initGlobals Sample.roster Sample.roster Sample.day) Sample.day Absent
                 (mkUI [] "Make your first guess." "0 / 8" false true "gam" [Sample.gamma]))
              Sample.roster Sample.roster Sample.day " gam " 0 Sample.gamma Sample.acme
              eq_refl H1 H2 eq_refl eq_refl eq_refl)
    as (w2 & row & Hclick & _ & Hrows & Hgs).
  - discriminate.
  - vm_compute. reflexivity.
  - split; [reflexivity|vm_compute; lia].
  - reflexivity.
  - exists w2, row. split; [vm_compute; reflexivity|].
    split; [vm_compute; reflexivity|]. split; [vm_compute; reflexivity|].
    split; [exact Hclick|]. split; [exact Hrows|exact Hgs].
Defined.

(** ** The share text of a solved session *)

Lemma shareLines_app (G : Globals) (xs ys : list json) :
  shareLines G (xs ++ ys)
  = (lx ← shareLines G xs; ly ← shareLines G ys; mret (lx ++ ly)).
Proof.
  induction xs as [|t xs IH]; simpl.
  - by destruct (shareLines G ys).
  - destruct (lookupGuess G t) as [g|]; [|done].
    destruct (answer G) as [ans|]; [|done].
    destruct (shareTiles g ans) as [tiles|]; [|done]. simpl.
    rewrite IH. destruct (shareLines G xs) as [lx|]; [|done]. simpl.
    by destruct (shareLines G ys).
Qed.

Lemma shareTiles_self (ans : Company) :
  shareTiles ans ans = Ok [Green; Green; Green; Green; Green; Green; Green].
Proof.
  destruct (guessRow_cells ans ans)
    as (f & fa & p & pa & m & ma & e & ea & q & qa
        & Hf & Hfa & Hp & Hpa & Hm & Hma & He & Hea & Hq & Hqa & _ & ->).
  assert (fa = f) as -> by congruence. assert (pa = p) as -> by congruence.
  assert (ma = m) as -> by congruence. assert (ea = e) as -> by congruence.
  assert (qa = q) as -> by congruence.
  rewrite !String.eqb_refl, !Z.eqb_refl. unfold peOk. rewrite Z.eqb_refl.
  by destruct (index q =? -1).
Qed.

(** X22: the share text of a solved session.  For a well-played session
    that is solved, with the answer stored in [byTicker] under its
    ticker, the header reads "Solved in n/8" with n between 1 and 8 the
    number of guesses, and the last tile line is seven green tiles. *)
Theorem solved_share_ends_green (G : Globals) (ans : Company) (st : State) :
  answer G = Some ans → byTicker G !! ticker ans = Some ans →
  wellPlayed ans st → solved st = true →
  ∃ lines,
    shareLines G (guesses st)
    = Ok (lines ++ [[Green; Green; Green; Green; Green; Green; Green]])
    ∧ (1 ≤ length (guesses st) ≤ 8)%nat
    ∧ resultLine st = "Solved in " +:+ pretty (length (guesses st)) +:+ "/8".
Proof.
  intros Hans Hidx (_ & Hlen & _ & Hlast) Hs.
  apply Hlast in Hs as Hl. apply last_Some in Hl as [gs Hgs].
  destruct (shareLines_ok G ans gs Hans) as [lines Hlines].
  exists lines. rewrite Hgs, shareLines_app, Hlines. simpl.
  rewrite Hidx, Hans, shareTiles_self. simpl. split; [done|].
  rewrite Hgs in Hlen. rewrite length_app in *. simpl in *.
  split; [unfold MAX_GUESSES in Hlen; lia|].
  unfold resultLine. rewrite Hs, Hgs, length_app. done.
Qed.

Lemma solved_share_ends_green_witness :
  answer Sample.G = Some Sample.acme
  ∧ byTicker Sample.G !! ticker Sample.acme = Some Sample.acme
  ∧ wellPlayed Sample.acme Sample.won ∧ solved Sample.won = true
  ∧ ∃ lines, shareLines Sample.G (guesses Sample.won)
             = Ok (lines ++ [[Green; Green; Green; Green; Green; Green; Green]]).
Proof.
  assert (byTicker Sample.G !! ticker Sample.acme = Some Sample.acme) as Hidx
    by (vm_compute; reflexivity).
  assert (wellPlayed Sample.acme Sample.won) as Hwp.
  { unfold wellPlayed. split.
    - apply (NoDup_fmap_2 JStr ["BET"; "ACM"]).
      apply (bool_decide_unpack (NoDup _)). vm_compute. exact I.
    - split; [vm_compute; lia|]. split; [|reflexivity].
      split; [intros _; right; left|reflexivity]. }
  split; [reflexivity|]. split; [exact Hidx|]. split; [exact Hwp|]. split; [reflexivity|].
  destruct (solved_share_ends_green Sample.G Sample.acme Sample.won eq_refl Hidx Hwp eq_refl)
    as (lines & Hl & _).
  exists lines. exact Hl.
Defined.
